(** * video-processor.js: a shallow embedding and its verified properties

    The program downloads YouTube videos into a cache directory, cuts one
    segment per request with ffmpeg (stream copy first, re-encode as a
    fallback) and merges the segments in request order.

    The embedding follows the source function by function.  JavaScript
    strings are lists of UTF-16 code units, JavaScript numbers are IEEE 754
    binary64 values (Rocq's primitive floats), thrown exceptions are an
    explicit result type, and every call to an external tool (yt-dlp, ffmpeg,
    the file system) is answered by an environment record and logged in a
    trace.  Paths are those of a POSIX system, joined and normalised as
    Node's [path] module does; which entry of the file system a path names
    is part of the environment. *)

From Stdlib Require Import ZArith NArith List String Ascii Floats Lia.
From stdpp Require Import base decidable option list sorting gmap sets.

#[local] Set Warnings "-register-all,-clear-no-such-hyp".

#[local] Open Scope Z_scope.

(** ** JavaScript strings *)

Module JS.

(** A string is a sequence of UTF-16 code units. *)
Definition code_unit := N.
Abbreviation jsstring := (list code_unit).

(** String literals of the source, which are all ASCII. *)
Definition lit (s : string) : jsstring :=
  List.map N_of_ascii (list_ascii_of_string s).

Definition code_unit_eqb (a b : code_unit) : bool := N.eqb a b.

(** [String.prototype.split] with a one-code-unit separator: the pieces
    between the occurrences of [sep]; a string without [sep] (the empty
    string too) gives one piece. *)
Fixpoint split_on (sep : code_unit) (s : jsstring) : list jsstring :=
  match s with
  | [] => [[]]
  | c :: s' =>
      if code_unit_eqb c sep then [] :: split_on sep s'
      else match split_on sep s' with
           | [] => [[c]]
           | p :: ps => (c :: p) :: ps
           end
  end.

(** Decimal rendering of a natural number, as a template literal does for a
    loop counter. *)
Definition digit_unit (d : nat) : code_unit := (48 + N.of_nat d)%N.

Fixpoint nat_digits (fuel n : nat) (acc : jsstring) : jsstring :=
  match fuel with
  | O => acc
  | S fuel' =>
      let acc' := digit_unit (n mod 10) :: acc in
      if (n / 10 =? 0)%nat then acc' else nat_digits fuel' (n / 10) acc'
  end.

Definition nat_to_string (n : nat) : jsstring := nat_digits (S n) n [].

(** ** JavaScript numbers *)

Definition number := float.

(** The nearest binary64 value, ties to even, of the positive rational
    [n / d] with the sign [neg].  The quotient is computed with at least 55
    significant bits and one sticky bit, so that the final rounding sees on
    which side of a midpoint the exact value lies. *)
Definition round_ratio (neg : bool) (n d : Z) : number :=
  if n =? 0 then (if neg then neg_zero else zero)
  else
    let k := Z.max 0 (56 + Z.log2 d - Z.log2 n) in
    let q := (n * 2 ^ k) / d in
    let r := (n * 2 ^ k) mod d in
    let mant := 2 * q + (if r =? 0 then 0 else 1) in
    SF2Prim (binary_normalize prec emax (if neg then - mant else mant)
                              (- (k + 1)) neg).

(** The nearest binary64 value of [m * 10 ^ e]. *)
Definition round_decimal (neg : bool) (m e : Z) : number :=
  round_ratio neg (m * 10 ^ Z.max e 0) (10 ^ Z.max (- e) 0).

(** StrWhiteSpaceChar: WhiteSpace and LineTerminator of ECMAScript. *)
Definition is_line_terminator (c : code_unit) : bool :=
  ((c =? 10) || (c =? 13) || (c =? 8232) || (c =? 8233))%N.

Definition is_white_space (c : code_unit) : bool :=
  ((c =? 9) || (c =? 11) || (c =? 12) || (c =? 32) || (c =? 160)
   || (c =? 5760) || ((8192 <=? c) && (c <=? 8202)) || (c =? 8239)
   || (c =? 8287) || (c =? 12288) || (c =? 65279))%N
  || is_line_terminator c.

Fixpoint drop_ws (s : jsstring) : jsstring :=
  match s with
  | c :: s' => if is_white_space c then drop_ws s' else s
  | [] => []
  end.

Definition trim (s : jsstring) : jsstring :=
  rev (drop_ws (rev (drop_ws s))).

(** The value of a digit in a radix up to 16, if the code unit is one. *)
Definition digit_in (radix : Z) (c : code_unit) : option Z :=
  let v :=
    if ((48 <=? c) && (c <=? 57))%N then Z.of_N c - 48
    else if ((97 <=? c) && (c <=? 102))%N then Z.of_N c - 87
    else if ((65 <=? c) && (c <=? 70))%N then Z.of_N c - 55
    else radix in
  if v <? radix then Some v else None.

(** The longest prefix of digits, and the rest. *)
Fixpoint span_digits (radix : Z) (s : jsstring) : list Z * jsstring :=
  match s with
  | c :: s' =>
      match digit_in radix c with
      | Some v => let '(ds, r) := span_digits radix s' in (v :: ds, r)
      | None => ([], s)
      end
  | [] => ([], [])
  end.

Definition digits_value (radix : Z) (ds : list Z) : Z :=
  fold_left (fun acc d => acc * radix + d) ds 0.

(** NonDecimalIntegerLiteral after its two-character prefix. *)
Definition radix_literal (radix : Z) (s : jsstring) : number :=
  match span_digits radix s with
  | (d :: ds, []) => round_ratio false (digits_value radix (d :: ds)) 1
  | _ => nan
  end.

(** ExponentPart, optional: the exponent, or [None] when what follows the
    digits is not an exponent part reaching the end of the string. *)
Definition exponent_part (s : jsstring) : option Z :=
  match s with
  | [] => Some 0
  | c :: s' =>
      if ((c =? 101) || (c =? 69))%N then
        let '(neg, s'') :=
          match s' with
          | 45%N :: t => (true, t)
          | 43%N :: t => (false, t)
          | _ => (false, s')
          end in
        match span_digits 10 s'' with
        | (d :: ds, []) =>
            let v := digits_value 10 (d :: ds) in
            Some (if neg then - v else v)
        | _ => None
        end
      else None
  end.

(** StrUnsignedDecimalLiteral. *)
Definition unsigned_decimal (neg : bool) (s : jsstring) : number :=
  if bool_decide (s = lit "Infinity")
  then (if neg then neg_infinity else infinity)
  else
    let '(ip, r1) := span_digits 10 s in
    let '(fp, r2) :=
      match r1 with
      | 46%N :: t => span_digits 10 t
      | _ => ([], r1)
      end in
    match ip ++ fp with
    | [] => nan
    | ds =>
        match exponent_part r2 with
        | Some e =>
            round_decimal neg (digits_value 10 ds) (e - Z.of_nat (List.length fp))
        | None => nan
        end
    end.

(** [Number(s)] for a string argument (StringToNumber): white space is
    trimmed, the empty string is [+0], and what is not a
    StringNumericLiteral is [NaN]. *)
Definition Number (s : jsstring) : number :=
  match trim s with
  | [] => zero
  | 48%N :: c :: t =>
      if ((c =? 120) || (c =? 88))%N then radix_literal 16 t
      else if ((c =? 111) || (c =? 79))%N then radix_literal 8 t
      else if ((c =? 98) || (c =? 66))%N then radix_literal 2 t
      else unsigned_decimal false (48%N :: c :: t)
  | 45%N :: t => unsigned_decimal true t
  | 43%N :: t => unsigned_decimal false t
  | t => unsigned_decimal false t
  end.

(** ** JavaScript values and exceptions *)

(** The values [JSON.parse] builds, and [undefined], which reading an absent
    property gives. *)
Inductive jsval :=
| VUndefined
| VNull
| VBool (b : bool)
| VNumber (n : number)
| VString (s : jsstring)
| VArray (elems : list jsval)
| VObject (props : list (jsstring * jsval)).

(** What the program throws: the [TypeError] of the language (a property
    read on [null] or [undefined], a call of something that is not a
    function), the three [Error]s that the source constructs itself, and the
    rejection of a file-system call. *)
Inductive exn :=
| TypeError
| InvalidTimeFormat (timeStr : jsstring)
| EndNotAfterStart (endTime startTime : jsval)
| InvalidInput
| IOError.

Inductive result (A : Type) :=
| Ok (a : A)
| Throw (e : exn).
Arguments Ok {A} a.
Arguments Throw {A} e.

#[global] Instance result_bind : MBind result := fun A B f r =>
  match r with
  | Ok a => f a
  | Throw e => Throw e
  end.

(** ToBoolean. *)
Definition truthy (v : jsval) : bool :=
  match v with
  | VUndefined | VNull => false
  | VBool b => b
  | VNumber n => negb (is_zero n || is_nan n)
  | VString s => negb (bool_decide (s = []))
  | VArray _ | VObject _ => true
  end.

Fixpoint lookup_prop (k : jsstring) (props : list (jsstring * jsval))
  : option jsval :=
  match props with
  | [] => None
  | (k', v) :: rest =>
      if bool_decide (k = k') then Some v else lookup_prop k rest
  end.

(** [v.k] for a property name [k] that no prototype defines ([url],
    [startTime] and [endTime] are such names): the own property of an
    object, [undefined] on any other value that has properties, and a
    [TypeError] on [null] and [undefined]. *)
Definition get_field (v : jsval) (k : jsstring) : result jsval :=
  match v with
  | VUndefined | VNull => Throw TypeError
  | VObject props => Ok (default VUndefined (lookup_prop k props))
  | _ => Ok VUndefined
  end.

(** [ToString] of a value that [JSON.parse] built, as a template literal
    applies it.  The text is only printed, so the embedding keeps whether the
    conversion completes.  A primitive always converts, and so does an object
    that inherits [toString].  An object with an own property [toString]
    does not: the property is not callable, [valueOf] does not return a
    primitive, and [OrdinaryToPrimitive] throws a [TypeError].  An array
    converts by [join], which converts each element other than [null]. *)
Fixpoint ToString (v : jsval) : result unit :=
  match v with
  | VObject props =>
      match lookup_prop (lit "toString") props with
      | Some _ => Throw TypeError
      | None => Ok ()
      end
  | VArray elems =>
      if forallb (fun x => match ToString x with
                           | Ok _ => true
                           | Throw _ => false
                           end) elems
      then Ok () else Throw TypeError
  | _ => Ok ()
  end.

(** ** Regular expressions

    A backtracking matcher for the constructs the source's pattern uses:
    [^], one code unit of a class, sequence, ordered alternation, the greedy
    star of a class and capture groups.  The continuation is what remains to
    be matched; the first success in priority order is the match. *)

Inductive regex :=
| Eps
| Bol
| Class (p : code_unit -> bool)
| Seq (r1 r2 : regex)
| Alt (r1 r2 : regex)
| Star (p : code_unit -> bool)
| Group (n : nat) (r : regex).

Record mstate := MState {
  pos : nat;
  rest : jsstring;
  caps : list (nat * jsstring)
}.

Definition captures := list (nat * jsstring).

Fixpoint star (p : code_unit -> bool) (k : mstate -> option captures)
  (i : nat) (s : jsstring) (cs : captures) : option captures :=
  match s with
  | c :: t =>
      if p c then
        match star p k (S i) t cs with
        | Some r => Some r
        | None => k (MState i s cs)
        end
      else k (MState i s cs)
  | [] => k (MState i [] cs)
  end.

Fixpoint run (r : regex) (k : mstate -> option captures) (m : mstate)
  : option captures :=
  match r with
  | Eps => k m
  | Bol => if (pos m =? 0)%nat then k m else None
  | Class p =>
      match rest m with
      | c :: t => if p c then k (MState (S (pos m)) t (caps m)) else None
      | [] => None
      end
  | Seq r1 r2 => run r1 (run r2 k) m
  | Alt r1 r2 =>
      match run r1 k m with
      | Some cs => Some cs
      | None => run r2 k m
      end
  | Star p => star p k (pos m) (rest m) (caps m)
  | Group n r1 =>
      run r1
        (fun m' =>
           k (MState (pos m') (rest m')
                ((n, take (pos m' - pos m) (rest m)) :: caps m')))
        m
  end.

(** [RegExp.prototype.exec] without flags: the match is tried at each
    start index in turn. *)
Fixpoint exec_from (r : regex) (i : nat) (s : jsstring) : option captures :=
  match run r (fun m => Some (caps m)) (MState i s []) with
  | Some cs => Some cs
  | None =>
      match s with
      | [] => None
      | _ :: t => exec_from r (S i) t
      end
  end.

Definition exec (r : regex) (s : jsstring) : option captures :=
  exec_from r 0 s.

Fixpoint group (n : nat) (cs : captures) : jsstring :=
  match cs with
  | [] => []
  | (n', g) :: rest => if (n =? n')%nat then g else group n rest
  end.

(** A literal run of characters. *)
Definition chars (s : string) : regex :=
  fold_right (fun c r => Seq (Class (code_unit_eqb c)) r) Eps (lit s).

(** [.] without the [s] flag, and [\w]. *)
Definition dot (c : code_unit) : bool := negb (is_line_terminator c).

Definition word_char (c : code_unit) : bool :=
  (((48 <=? c) && (c <=? 57)) || ((65 <=? c) && (c <=? 90))
   || ((97 <=? c) && (c <=? 122)) || (c =? 95))%N.

End JS.

Import JS.

(** * The utility functions of the source *)

(** The pattern of the source: start of input, any characters, one of the
    markers [youtu.be\/], [v\/], [u\/\w\/], [embed\/], [watch\?v=], [&v=] as
    group 1, a greedy run of characters other than [#], [&] and [?] as
    group 2, any characters.  The dot of [youtu.be] is unescaped in the
    source, so it stands for any character. *)
Definition not_separator (c : code_unit) : bool :=
  negb ((c =? 35) || (c =? 38) || (c =? 63))%N.

Definition markers : regex :=
  Alt (Seq (chars "youtu") (Seq (Class dot) (chars "be/")))
 (Alt (chars "v/")
 (Alt (Seq (chars "u/") (Seq (Class word_char) (chars "/")))
 (Alt (chars "embed/")
 (Alt (chars "watch?v=")
      (chars "&v="))))).

Definition regExp : regex :=
  Seq Bol
 (Seq (Star dot)
 (Seq (Group 1 markers)
 (Seq (Group 2 (Star not_separator))
      (Star dot)))).

(** [getYouTubeId(url)]: the second capture when it has exactly 11 code
    units, [null] otherwise.  [url.match] is a [TypeError] on a value that
    is not a string. *)
Definition getYouTubeId (url : jsval) : result (option jsstring) :=
  match url with
  | VString s =>
      match exec regExp s with
      | Some m =>
          if (length (group 2 m) =? 11)%nat then Ok (Some (group 2 m))
          else Ok None
      | None => Ok None
      end
  | _ => Throw TypeError
  end.

(** [timeToSeconds(timeStr)]: [split(':')], [map(Number)], then the sum
    chosen by the number of parts. *)
Definition timeToSeconds (timeStr : jsval) : result number :=
  match timeStr with
  | VString s =>
      match List.map Number (split_on 58%N s) with
      | [h; m; sec] => Ok (h * 3600 + m * 60 + sec)%float
      | [m; sec] => Ok (m * 60 + sec)%float
      | [sec] => Ok sec
      | _ => Throw (InvalidTimeFormat s)
      end
  | _ => Throw TypeError
  end.

(** [calculateDuration(startTime, endTime)].  The source returns the decimal
    string of the difference ([toString]); the embedding keeps the number
    that string renders.  The [catch] clause logs and rethrows. *)
Definition calculateDuration (startTime endTime : jsval) : result number :=
  startSeconds ← timeToSeconds startTime;
  endSeconds ← timeToSeconds endTime;
  if (endSeconds <=? startSeconds)%float
  then Throw (EndNotAfterStart endTime startTime)
  else Ok (endSeconds - startSeconds)%float.

(** * The world outside the program *)

(** ** Paths

    Paths are strings.  [path.join] is that of Node on a POSIX system (the
    separator is [/]): it joins its non-empty arguments with a separator and
    normalises the result. *)
Abbreviation path := (list code_unit).

Definition slash : code_unit := 47%N.

(** [normalizeString] of Node's [path] module, on the segments between the
    separators, read from left to right: an empty segment and [.] are
    dropped; [..] removes the segment kept before it, unless there is none
    or it is [..] itself, in which case [..] is kept when the path is
    relative ([allowAboveRoot]) and dropped when it is absolute.  [res] holds
    the segments kept so far, the last one first. *)
Fixpoint normalizeString (allowAboveRoot : bool) (segs res : list jsstring)
  : list jsstring :=
  match segs with
  | [] => rev res
  | seg :: segs' =>
      if bool_decide (seg = []) || bool_decide (seg = lit ".")
      then normalizeString allowAboveRoot segs' res
      else if bool_decide (seg = lit "..") then
        match res with
        | prev :: res' =>
            if bool_decide (prev = lit "..")
            then normalizeString allowAboveRoot segs'
                   (if allowAboveRoot then seg :: res else res)
            else normalizeString allowAboveRoot segs' res'
        | [] =>
            normalizeString allowAboveRoot segs'
              (if allowAboveRoot then [seg] else [])
        end
      else normalizeString allowAboveRoot segs' (seg :: res)
  end.

Fixpoint join_segments (segs : list jsstring) : jsstring :=
  match segs with
  | [] => []
  | [seg] => seg
  | seg :: rest => seg ++ slash :: join_segments rest
  end.

Definition isAbsolute (p : path) : bool :=
  match p with
  | c :: _ => code_unit_eqb c slash
  | [] => false
  end.

Definition trailingSeparator (p : path) : bool :=
  match last p with
  | Some c => code_unit_eqb c slash
  | None => false
  end.

(** [path.normalize]. *)
Definition normalize (p : path) : path :=
  if bool_decide (p = []) then lit "."
  else
    let res :=
      join_segments
        (normalizeString (negb (isAbsolute p)) (split_on slash p) []) in
    if bool_decide (res = []) then
      if isAbsolute p then lit "/"
      else if trailingSeparator p then lit "./" else lit "."
    else
      (if isAbsolute p then lit "/" else [])
      ++ res ++ (if trailingSeparator p then lit "/" else []).

(** [path.join(dir, name)]. *)
Definition path_join (dir name : path) : path :=
  match dir, name with
  | [], [] => lit "."
  | [], _ => normalize name
  | _, [] => normalize dir
  | _, _ => normalize (dir ++ slash :: name)
  end.

(** ** The file system

    A location is an entry of the file system: the names on the way from
    the root down to it.  Which location a path string names is for the
    system to say (the working directory, [.] and [..], repeated
    separators, links), so it is part of the environment below, and the
    statements hold for every such naming.  The concrete runs use
    [posix_locate], which is [path.resolve] for the working directory
    [cwd], an absolute path: the naming of a system without links. *)
Abbreviation location := (list (list code_unit)).

Definition posix_locate (cwd p : path) : location :=
  normalizeString false
    (split_on slash (if isAbsolute p then p else cwd ++ slash :: p)) [].

(** Whether [l] is the entry [dir] itself or lies in the tree below it. *)
Definition inside (dir l : location) : Prop := dir `prefix_of` l.

#[global] Instance inside_dec dir l : Decision (inside dir l).
Proof. unfold inside. apply _. Defined.

(** The files that exist.  Directories are not listed: a directory on the
    way to a file exists with that file, and which other directories there
    are is for the environment to say. *)
Abbreviation files := (gset (list (list code_unit))).

(** How a recursive removal ends: it resolves, and the whole tree is gone;
    or it rejects, having deleted some entries of the tree and kept the
    others. *)
Inductive removal :=
| Removed
| RemovalFailed (kept : list jsstring -> bool).

Definition completed (r : removal) : bool :=
  match r with
  | Removed => true
  | RemovalFailed _ => false
  end.

Definition deletes (r : removal) (l : location) : bool :=
  match r with
  | Removed => true
  | RemovalFailed kept => negb (kept l)
  end.

(** [fs.remove(dir)] deletes [dir] and what is below it; [fs.emptyDir(dir)]
    deletes what is below [dir] and keeps the directory. *)
Definition fs_remove (r : removal) (dir : location) (fs : files) : files :=
  filter (fun l => ¬ (inside dir l ∧ deletes r l = true)) fs.

Definition fs_emptyDir (r : removal) (dir : location) (fs : files) : files :=
  filter (fun l => ¬ (inside dir l ∧ l ≠ dir ∧ deletes r l = true)) fs.

(** How a run of an external tool ends: it succeeds and its output file
    exists, or it fails, having left a partial output file or not. *)
Inductive outcome :=
| Succeeded
| Failed (partial : bool).

Definition writes (o : outcome) : bool :=
  match o with
  | Succeeded => true
  | Failed partial => partial
  end.

Definition succeeded (o : outcome) : bool :=
  match o with
  | Succeeded => true
  | Failed _ => false
  end.

(** The command line options, after [yargs]. *)
Record config := Config {
  input : path;
  output : path;
  cacheDir : path;
  tempDir : path;
  verbose : bool
}.

(** The answers of the environment during one run.  The tools called once
    per request are indexed by the loop counter [i]. *)
Record env := Env {
  locate : path -> list jsstring; (* the entry that a path names *)
  directory : list jsstring -> bool; (* the directories during the loop *)
  ffmpegFound : bool;            (* [ffmpeg -version] runs *)
  ytdlpFound : bool;             (* [yt-dlp --version] runs *)
  ensureDirs : bool;             (* the two [ensureDir] calls resolve *)
  emptyTemp : removal;           (* [fs.emptyDir(tempDir)] *)
  inputFile : option jsval;      (* [readFile] and [JSON.parse], if neither throws *)
  youtubedl : nat -> outcome;    (* the download of request [i] *)
  copyCut : nat -> outcome;      (* ffmpeg with [-c copy] for request [i] *)
  reencodeCut : nat -> outcome;  (* ffmpeg without it for request [i] *)
  mergeToFile : outcome;         (* the concatenation *)
  removeTemp : removal           (* [fs.remove(tempDir)] *)
}.

(** What the program does to the outside, in order: the external commands
    it starts, and the lines of its console that report a skip or a
    failure. *)
Inductive notice :=
| NoVideoId (url : jsval)
| DownloadError (url : jsstring)
| DurationError (e : exn)
| CopyError
| ReencodeError
| CuttingError
| NothingToJoin
| JoinError
| CleanupError.

Inductive event :=
| Exec (command : jsstring)
| Download (url : jsstring) (out : path)
| CutCopy (src : path) (startTime : jsval) (duration : number) (out : path)
| CutReencode (src : path) (startTime : jsval) (duration : number) (out : path)
| MergeFiles (inputs : list path) (out : path) (tmp : path)
| Log (n : notice).

Record state := State {
  fs : files;
  trace : list event;
  cutSegmentPaths : list path
}.

Definition emit (e : event) (st : state) : state :=
  State (fs st) (trace st ++ [e]) (cutSegmentPaths st).

Definition push (p : path) (st : state) : state :=
  State (fs st) (trace st) (cutSegmentPaths st ++ [p]).

(** [fs.pathExists(p)]: [p] names a file, a directory on the way to a
    file, or another directory. *)
Definition pathExists (w : env) (p : path) (st : state) : bool :=
  bool_decide (set_Exists (fun l => locate w p `prefix_of` l) (fs st))
  || directory w (locate w p).

(** The effect of a tool run on the file it writes. *)
Definition written (w : env) (o : outcome) (p : path) (st : state) : state :=
  State (if writes o then {[ locate w p ]} ∪ fs st else fs st)
        (trace st) (cutSegmentPaths st).

(** The effect of [fs.remove(tempDir)]. *)
Definition removed (cfg : config) (w : env) (st : state) : state :=
  State (fs_remove (removeTemp w) (locate w (tempDir cfg)) (fs st))
        (trace st) (cutSegmentPaths st).

Definition is_download (e : event) : bool :=
  match e with Download _ _ => true | _ => false end.

Definition is_cut (e : event) : bool :=
  match e with CutCopy _ _ _ _ | CutReencode _ _ _ _ => true | _ => false end.

Definition is_merge (e : event) : bool :=
  match e with MergeFiles _ _ _ => true | _ => false end.

(** The calls made for requests and for the merge: every external command
    but the two version checks. *)
Definition is_processing (e : event) : bool :=
  is_download e || is_cut e || is_merge e.

(** * The main program *)

(** One iteration of the loop ends by falling off the end of its body
    ([Next]), by [continue] ([Skip]), or by an exception that nothing in the
    loop catches ([Uncaught]). *)
Inductive flow :=
| Next (st : state)
| Skip (st : state)
| Uncaught (e : exn) (st : state).

(** An expression evaluated outside any [try]: what it throws leaves the
    loop. *)
Definition unguarded {A} (r : result A) (st : state) (k : A -> flow) : flow :=
  match r with
  | Ok a => k a
  | Throw e => Uncaught e st
  end.

Definition cachedVideoPath (cfg : config) (videoId : jsstring) : path :=
  path_join (cacheDir cfg) (videoId ++ lit ".mp4").

Definition segmentFileName (i : nat) (videoId : jsstring) : jsstring :=
  lit "cut_segment_" ++ nat_to_string (i + 1) ++ lit "_" ++ videoId
  ++ lit ".mp4".

Definition segmentOutputPath (cfg : config) (i : nat) (videoId : jsstring)
  : path :=
  path_join (tempDir cfg) (segmentFileName i videoId).

(** Step 4a: the cached file is used when it exists; otherwise the video is
    downloaded to the cache path, and a failed download skips the request. *)
Definition fetch (cfg : config) (w : env) (i : nat) (url videoId : jsstring)
  (st : state) : flow :=
  if pathExists w (cachedVideoPath cfg videoId) st then Next st
  else
    let st1 := emit (Download url (cachedVideoPath cfg videoId)) st in
    let st2 := written w (youtubedl w i) (cachedVideoPath cfg videoId) st1 in
    if succeeded (youtubedl w i) then Next st2
    else Skip (emit (Log (DownloadError url)) st2).

(** The promise around the two ffmpeg commands.  The executor evaluates
    [calculateDuration] while it builds the first command, so an exception
    there rejects the promise before any command is started.  The [error]
    handler of the first command builds and starts the second. *)
Definition cut_promise (cfg : config) (w : env) (i : nat)
  (startTime endTime : jsval) (videoId : jsstring) (st : state) : flow :=
  let src := cachedVideoPath cfg videoId in
  let out := segmentOutputPath cfg i videoId in
  match calculateDuration startTime endTime with
  | Throw e =>
      Skip (emit (Log CuttingError) (emit (Log (DurationError e)) st))
  | Ok duration =>
      let st1 := emit (CutCopy src startTime duration out) st in
      let st2 := written w (copyCut w i) out st1 in
      if succeeded (copyCut w i) then Next (push out st2)
      else
        let st3 := emit (Log CopyError) st2 in
        match calculateDuration startTime endTime with
        | Throw e => Uncaught e (emit (Log (DurationError e)) st3)
        | Ok duration' =>
            let st4 := emit (CutReencode src startTime duration' out) st3 in
            let st5 := written w (reencodeCut w i) out st4 in
            if succeeded (reencodeCut w i) then Next (push out st5)
            else
              Skip (emit (Log CuttingError) (emit (Log ReencodeError) st5))
        end
  end.

(** Step 4b.  The line that announces the cut is a template literal over
    [task.startTime] and [task.endTime], outside the [try]: a value that has
    no string conversion ends the loop with a [TypeError]. *)
Definition cut (cfg : config) (w : env) (i : nat) (task : jsval)
  (videoId : jsstring) (st : state) : flow :=
  unguarded (get_field task (lit "startTime")) st (fun startTime =>
  unguarded (ToString startTime) st (fun _ =>
  unguarded (get_field task (lit "endTime")) st (fun endTime =>
  unguarded (ToString endTime) st (fun _ =>
  cut_promise cfg w i startTime endTime videoId st)))).

(** The body of the [for] loop.  Its first line prints [task.url] in a
    template literal. *)
Definition process_task (cfg : config) (w : env) (i : nat) (task : jsval)
  (st : state) : flow :=
  unguarded (get_field task (lit "url")) st (fun url =>
  unguarded (ToString url) st (fun _ =>
  unguarded (getYouTubeId url) st (fun videoId =>
  match videoId, url with
  | Some videoId, VString u =>
      match fetch cfg w i u videoId st with
      | Next st1 => cut cfg w i task videoId st1
      | other => other
      end
  | _, _ => Skip (emit (Log (NoVideoId url)) st)
  end))).

(** The [for] loop, from counter [i] on. *)
Fixpoint loop (cfg : config) (w : env) (i : nat) (videoTasks : list jsval)
  (st : state) : flow :=
  match videoTasks with
  | [] => Next st
  | task :: rest =>
      match process_task cfg w i task st with
      | Next st1 | Skip st1 => loop cfg w (S i) rest st1
      | Uncaught e st1 => Uncaught e st1
      end
  end.

(** Step 3: the test of the [some] callback on one entry, and the whole
    check.  Whatever is thrown inside the [try] ends the process. *)
Definition incomplete (task : jsval) : result bool :=
  url ← get_field task (lit "url");
  if negb (truthy url) then Ok true
  else
    startTime ← get_field task (lit "startTime");
    if negb (truthy startTime) then Ok true
    else
      endTime ← get_field task (lit "endTime");
      Ok (negb (truthy endTime)).

Fixpoint some (f : jsval -> result bool) (l : list jsval) : result bool :=
  match l with
  | [] => Ok false
  | x :: rest => b ← f x; if (b : bool) then Ok true else some f rest
  end.

Definition read_tasks (w : env) : result (list jsval) :=
  match inputFile w with
  | None => Throw IOError
  | Some (VArray videoTasks) =>
      bad ← some incomplete videoTasks;
      if (bad : bool) then Throw InvalidInput else Ok videoTasks
  | Some _ => Throw InvalidInput
  end.

(** How the process ends: [process.exit(code)], the return of [main], or a
    rejection of [main]'s promise. *)
Inductive exit :=
| Exited (code : Z)
| Returned
| Rejected (e : exn).

Record report := Report {
  status : exit;
  final : state
}.

(** Step 6: the removal is inside a [try]; its failure is a warning. *)
Definition cleanup (cfg : config) (w : env) (st : state) : state :=
  if verbose cfg then st
  else if completed (removeTemp w) then removed cfg w st
       else emit (Log CleanupError) (removed cfg w st).

(** Step 5, after the test for an empty list. *)
Definition join (cfg : config) (w : env) (st : state) : state :=
  let st1 := emit (MergeFiles (cutSegmentPaths st) (output cfg) (tempDir cfg)) st in
  let st2 := written w (mergeToFile w) (output cfg) st1 in
  if succeeded (mergeToFile w) then st2 else emit (Log JoinError) st2.

(** Step 5, when the list is empty: the removal is outside any [try]. *)
Definition nothing_to_join (cfg : config) (w : env) (st : state) : report :=
  let st1 := emit (Log NothingToJoin) st in
  if verbose cfg then Report (Exited 0) st1
  else if completed (removeTemp w) then Report (Exited 0) (removed cfg w st1)
       else Report (Rejected IOError) (removed cfg w st1).

(** The two version checks of step 1. *)
Definition version_checks : list event :=
  [Exec (lit "ffmpeg -version"); Exec (lit "yt-dlp --version")].

(** The state after step 2: the temporary directory has been emptied. *)
Definition checked (cfg : config) (w : env) (fs0 : files) : state :=
  State (fs_emptyDir (emptyTemp w) (locate w (tempDir cfg)) fs0)
        version_checks [].

Definition main (cfg : config) (w : env) (fs0 : files) : report :=
  let st0 := State fs0 version_checks [] in
  if negb (ffmpegFound w) || negb (ytdlpFound w) then Report (Exited 1) st0
  else if negb (ensureDirs w) then Report (Exited 1) st0
  else if negb (completed (emptyTemp w))
  then Report (Exited 1) (checked cfg w fs0)
  else
    match read_tasks w with
    | Throw _ => Report (Exited 1) (checked cfg w fs0)
    | Ok videoTasks =>
        match loop cfg w 0 videoTasks (checked cfg w fs0) with
        | Uncaught e st => Report (Rejected e) st
        | Next st | Skip st =>
            if bool_decide (cutSegmentPaths st = []) then nothing_to_join cfg w st
            else Report Returned (cleanup cfg w (join cfg w st))
        end
    end.

(** * Vocabulary of the statements *)

Definition colon : code_unit := 58%N.

(** The strings that the alternatives of group 1 match. *)
Definition marker (mk : jsstring) : Prop :=
  (∃ c, dot c = true ∧ mk = lit "youtu" ++ c :: lit "be/")
  ∨ mk = lit "v/"
  ∨ (∃ c, word_char c = true ∧ mk = lit "u/" ++ c :: lit "/")
  ∨ mk = lit "embed/"
  ∨ mk = lit "watch?v="
  ∨ mk = lit "&v=".

(** The state in which an iteration or the loop ends. *)
Definition state_of (fl : flow) : state :=
  match fl with
  | Next st | Skip st | Uncaught _ st => st
  end.

(** The events that [st'] has and its earlier state [st] does not. *)
Definition added (st st' : state) : list event :=
  drop (length (trace st)) (trace st').

(** An entry has a field when it is an object with that property. *)
Definition has_field (task : jsval) (k : jsstring) : Prop :=
  ∃ props v, task = VObject props ∧ lookup_prop k props = Some v.

Definition required_fields : list jsstring :=
  [lit "url"; lit "startTime"; lit "endTime"].

(** Request [j] of the list (counted from the loop index [i] on) produces
    the clip [p]: the loop reaches it, its iteration runs to the end, and
    [p] is what that iteration appends. *)
Definition produces (cfg : config) (w : env) (i : nat)
  (videoTasks : list jsval) (st : state) (j : nat) (p : path) : Prop :=
  ∃ task st_j st_j',
    videoTasks !! j = Some task
    ∧ loop cfg w i (take j videoTasks) st = Next st_j
    ∧ process_task cfg w (i + j) task st_j = Next st_j'
    ∧ cutSegmentPaths st_j' = cutSegmentPaths st_j ++ [p].

(** ** Sample data for the concrete runs *)

Module Sample.

Definition cfg : config :=
  Config (lit "videos.json") (lit "final.mp4") (lit ".youtube_cache")
         (lit ".temp_segments") false.

Definition task (url startTime endTime : string) : jsval :=
  VObject [(lit "url", VString (lit url));
           (lit "startTime", VString (lit startTime));
           (lit "endTime", VString (lit endTime))].

Definition url : string := "https://www.youtube.com/watch?v=FZLadzn5i6Q".
Definition videoId : jsstring := lit "FZLadzn5i6Q".

(** The working directory of the runs, on a system without links, and its
    directories. *)
Definition cwd : path := lit "/work".

Definition directories (l : list jsstring) : bool :=
  bool_decide (l ∈ [[]; [lit "work"]; [lit "work"; lit ".youtube_cache"];
                    [lit "work"; lit ".temp_segments"]]).

(** Every tool works. *)
Definition all_fine (videoTasks : list jsval) : env :=
  Env (posix_locate cwd) directories true true true Removed (Some (VArray videoTasks))
      (fun _ => Succeeded) (fun _ => Succeeded) (fun _ => Succeeded)
      Succeeded Removed.

Definition start (fs0 : files) : state := State fs0 [] [].

(** The output is asked for inside the temporary directory, and the two
    paths are spelled differently. *)
Definition cfg_inside : config :=
  Config (lit "videos.json") (lit "./.temp_segments/final.mp4")
         (lit ".youtube_cache") (lit ".temp_segments/") false.

(** The cached file of the sample video. *)
Definition cached : list jsstring :=
  [lit "work"; lit ".youtube_cache"; lit "FZLadzn5i6Q.mp4"].

(** Three requests, the second of which has no identifier in its URL. *)
Definition url' : string := "https://youtu.be/xfMN4SpIxIA".

Definition three : list jsval :=
  [task url "00:00:00" "00:01:09";
   task "https://example.com/clip.mp4" "00:00:18" "00:01:12";
   task url' "00:00:00" "00:00:52"].

Definition clip1 : path := lit ".temp_segments/cut_segment_1_FZLadzn5i6Q.mp4".
Definition clip3 : path := lit ".temp_segments/cut_segment_3_xfMN4SpIxIA.mp4".

(** Two requests for the same video. *)
Definition url_embed : string := "https://www.youtube.com/embed/FZLadzn5i6Q".

Definition twice : list jsval :=
  [task url "00:00:00" "00:01:09"; task url_embed "00:02:00" "00:02:30"].

(** No request resolves to an identifier. *)
Definition unresolved : list jsval :=
  [task "https://example.com/a.mp4" "00:00:00" "00:00:10";
   task "https://youtu.be/short" "00:00:00" "00:00:10"].

(** The second entry has no [endTime]. *)
Definition malformed : list jsval :=
  [task url "00:00:00" "00:01:09";
   VObject [(lit "url", VString (lit url'));
            (lit "startTime", VString (lit "00:00:10"))]].

(** The concatenation fails and leaves a partial file. *)
Definition merge_fails (videoTasks : list jsval) : env :=
  Env (posix_locate cwd) directories true true true Removed (Some (VArray videoTasks))
      (fun _ => Succeeded) (fun _ => Succeeded) (fun _ => Succeeded)
      (Failed true) Removed.

(** The stream copy fails for every request. *)
Definition copy_fails (videoTasks : list jsval) : env :=
  Env (posix_locate cwd) directories true true true Removed (Some (VArray videoTasks))
      (fun _ => Succeeded) (fun _ => Failed false) (fun _ => Succeeded)
      Succeeded Removed.

(** The download of the first request fails and leaves nothing; the later
    downloads work. *)
Definition first_download_fails (videoTasks : list jsval) : env :=
  Env (posix_locate cwd) directories true true true Removed (Some (VArray videoTasks))
      (fun i => match i with O => Failed false | _ => Succeeded end)
      (fun _ => Succeeded) (fun _ => Succeeded) Succeeded Removed.

(** The removal of the temporary directory is refused, and nothing is
    deleted. *)
Definition removal_fails (videoTasks : list jsval) : env :=
  Env (posix_locate cwd) directories true true true Removed (Some (VArray videoTasks))
      (fun _ => Succeeded) (fun _ => Succeeded) (fun _ => Succeeded)
      Succeeded (RemovalFailed (fun _ => true)).

End Sample.

(** * Vocabulary of the further properties *)

(** The characters of an identifier, and the two characters a marker can
    end with. *)
Definition id_char (c : code_unit) : bool := word_char c || (c =? 45)%N.

Definition ends_marker (c : code_unit) : bool := ((c =? 47) || (c =? 61))%N.

(** Whether one of the alternatives of group 1 matches at the head of [s]. *)
Definition marker_at (s : jsstring) : bool :=
  bool_decide (is_Some (run markers (fun _ => Some []) (MState 0 s []))).

(** No marker starts in [p] after index [n]. *)
Definition last_marker_at (p : jsstring) (n : nat) : bool :=
  forallb (fun i => negb (marker_at (drop i p)) || (i <=? n)%nat)
          (seq 0 (S (length p))).

(** The source file of a cut command. *)
Definition cut_source (e : event) : option path :=
  match e with
  | CutCopy src _ _ _ | CutReencode src _ _ _ => Some src
  | _ => None
  end.

(** The three console lines that report a skipped request. *)
Definition is_skip_notice (e : event) : bool :=
  match e with
  | Log (NoVideoId _) | Log (DownloadError _) | Log CuttingError => true
  | _ => false
  end.

(** An entry that passes the check of step 3: an object whose three
    required properties are present and truthy. *)
Definition well_formed (task : jsval) : Prop :=
  ∃ props,
    task = VObject props
    ∧ Forall (fun k => ∃ v, lookup_prop k props = Some v ∧ truthy v = true)
             required_fields.

(** An entry on which no line of the loop can throw: its url is a string
    and its two time fields convert to strings. *)
Definition safe (task : jsval) : Prop :=
  ∃ u a b,
    get_field task (lit "url") = Ok (VString u)
    ∧ get_field task (lit "startTime") = Ok a
    ∧ get_field task (lit "endTime") = Ok b
    ∧ ToString a = Ok () ∧ ToString b = Ok ().


(** * The title route

    [GET /api/youtube/title/:videoId], in its Next.js and its Express
    version, which differ in the framework calls only.  The answer of
    [fetch] is the environment: the request is rejected, or a response
    arrives with its [ok] flag, its status and the value of its JSON body
    ([None] when [response.json()] is rejected). *)
Inductive fetch_outcome :=
| FetchRejected
| Responded (ok : bool) (code : Z) (json : option jsval).

Record json_response := JsonResponse {
  status_code : Z;
  body : list (jsstring * jsval)
}.

Definition title_failure (videoId : jsstring) : json_response :=
  JsonResponse 500
    [(lit "error", VString (lit "Failed to fetch video title"));
     (lit "fallback", VString (lit "Video " ++ videoId))].

Definition GET (videoId : jsstring) (net : fetch_outcome) : json_response :=
  if bool_decide (videoId = []) then
    JsonResponse 400 [(lit "error", VString (lit "Video ID is required"))]
  else
    match net with
    | FetchRejected => title_failure videoId
    | Responded ok _ json =>
        if negb ok then title_failure videoId
        else
          match json with
          | None => title_failure videoId
          | Some data =>
              match get_field data (lit "title"),
                    get_field data (lit "author_name"),
                    get_field data (lit "thumbnail_url") with
              | Ok title, Ok author_name, Ok thumbnail_url =>
                  JsonResponse 200
                    [(lit "title",
                      if truthy title then title
                      else VString (lit "Video " ++ videoId));
                     (lit "author", author_name);
                     (lit "thumbnail", thumbnail_url)]
              | _, _, _ => title_failure videoId
              end
          end
    end.

(** ** More sample data *)

Module Sample'.

(** An entry with a number where its url should be. *)
Definition typed : jsval :=
  VObject [(lit "url", VNumber 5%float);
           (lit "startTime", VString (lit "00:00:10"));
           (lit "endTime", VString (lit "00:00:20"))].

Definition first : jsval := Sample.task Sample.url "00:00:00" "00:01:09".


(** An entry whose start time is an object with a property [toString]. *)
Definition unprintable : jsval :=
  VObject [(lit "url", VString (lit Sample.url));
           (lit "startTime", VObject [(lit "toString", VNumber 1%float)]);
           (lit "endTime", VString (lit "00:00:20"))].

(** A link whose query ends in a second marker. *)
Definition shared : jsstring :=
  lit "https://youtu.be/dQw4w9WgXcQ?feature=share".

End Sample'.


(** * Properties of the utility functions *)

#[local] Arguments getYouTubeId : simpl never.
#[local] Arguments timeToSeconds : simpl never.
#[local] Arguments calculateDuration : simpl never.
#[local] Arguments cachedVideoPath : simpl never.
#[local] Arguments segmentOutputPath : simpl never.

(** Closed decidable side conditions are settled by evaluation. *)
Ltac decide_closed :=
  apply (bool_decide_unpack _); vm_compute; exact I.

Section Split.

Variable sep : code_unit.

Lemma split_on_nonempty (s : jsstring) : split_on sep s ≠ [].
Proof.
  induction s as [|c s IH]; simpl; [done|].
  destruct (code_unit_eqb c sep); [done|].
  destruct (split_on sep s); done.
Qed.

Lemma split_on_no_sep (s : jsstring) : sep ∉ s → split_on sep s = [s].
Proof.
  induction s as [|c s IH]; intros Hs; simpl; [done|].
  apply not_elem_of_cons in Hs as [Hc Hs].
  unfold code_unit_eqb. destruct (N.eqb_spec c sep); [done|].
  by rewrite IH.
Qed.

Lemma split_on_app (s t : jsstring) :
  sep ∉ s → split_on sep (s ++ sep :: t) = s :: split_on sep t.
Proof.
  induction s as [|c s IH]; intros Hs; simpl.
  - unfold code_unit_eqb. by rewrite N.eqb_refl.
  - apply not_elem_of_cons in Hs as [Hc Hs].
    unfold code_unit_eqb. destruct (N.eqb_spec c sep); [done|].
    by rewrite IH.
Qed.

(** The number of pieces is the number of separators plus one. *)
Lemma split_on_length (s : jsstring) :
  length (split_on sep s)
  = S (length (filter (fun c => c = sep) s)).
Proof.
  induction s as [|c s IH]; [done|]. cbn [split_on].
  unfold code_unit_eqb. destruct (N.eqb_spec c sep) as [->|Hne].
  - rewrite filter_cons_True by done. cbn [length]. by rewrite IH.
  - rewrite filter_cons_False by done.
    destruct (split_on sep s) eqn:E; cbn [length] in *; done.
Qed.

End Split.

(** The three accepted shapes, and the rejected ones. *)
Lemma timeToSeconds_SS (s : jsstring) :
  colon ∉ s → timeToSeconds (VString s) = Ok (Number s).
Proof.
  intros Hs. unfold timeToSeconds.
  change 58%N with colon. by rewrite split_on_no_sep.
Qed.

Lemma timeToSeconds_MMSS (m s : jsstring) :
  colon ∉ m → colon ∉ s →
  timeToSeconds (VString (m ++ colon :: s))
  = Ok (Number m * 60 + Number s)%float.
Proof.
  intros Hm Hs. unfold timeToSeconds. change 58%N with colon.
  by rewrite split_on_app, split_on_no_sep.
Qed.

Lemma timeToSeconds_HHMMSS (h m s : jsstring) :
  colon ∉ h → colon ∉ m → colon ∉ s →
  timeToSeconds (VString (h ++ colon :: m ++ colon :: s))
  = Ok (Number h * 3600 + Number m * 60 + Number s)%float.
Proof.
  intros Hh Hm Hs. unfold timeToSeconds. change 58%N with colon.
  by rewrite !split_on_app, split_on_no_sep.
Qed.

(** The only strings that [timeToSeconds] rejects are those with more than
    two colons. *)
Lemma timeToSeconds_throws_iff (s : jsstring) :
  (∃ e, timeToSeconds (VString s) = Throw e)
  ↔ (3 < length (split_on colon s))%nat.
Proof.
  unfold timeToSeconds. change 58%N with colon.
  pose proof (split_on_nonempty colon s) as Hne.
  destruct (split_on colon s) as [|a [|b [|c [|d l]]]]; simpl; try done.
  - split; [intros [e He]; done | lia].
  - split; [intros [e He]; done | lia].
  - split; [intros [e He]; done | lia].
  - split; [lia | eauto].
Qed.

Lemma timeToSeconds_examples :
  timeToSeconds (VString (lit "01:02:03")) = Ok 3723%float
  ∧ timeToSeconds (VString (lit "02:03")) = Ok 123%float
  ∧ timeToSeconds (VString (lit "45")) = Ok 45%float
  ∧ timeToSeconds (VString (lit "1:2:3:4"))
    = Throw (InvalidTimeFormat (lit "1:2:3:4")).
Proof. repeat split; vm_compute; reflexivity. Qed.

(** C2: the claim says that every string which is not of the shape HH:MM:SS,
    MM:SS or SS fails with a parse error, a non-numeric token such as "abc"
    and the empty string included.  The code counts the parts and never
    looks at what [Number] made of them: "abc" is one part and is returned
    as NaN, the empty string is one part and is returned as 0, and a
    non-numeric part next to numeric ones makes the sum NaN.  Only a string
    of four or more parts throws. *)
Theorem timeToSeconds_returns_on_non_numeric :
  timeToSeconds (VString (lit "abc")) = Ok nan
  ∧ timeToSeconds (VString (lit "")) = Ok zero
  ∧ timeToSeconds (VString (lit "12:xx")) = Ok nan
  ∧ (∀ e, timeToSeconds (VString (lit "abc")) ≠ Throw e).
Proof.
  assert (H : timeToSeconds (VString (lit "abc")) = Ok nan)
    by (vm_compute; reflexivity).
  repeat split; try (vm_compute; reflexivity).
  intros e. rewrite H. discriminate.
Qed.

(** C10: timecode parsing has no range check.  Any string of one, two or
    three colon-separated parts is accepted, and its value is the weighted
    sum of what [Number] gives for the parts, whatever their size or sign:
    "99:99" is 6039 seconds, "00:99" is 99 seconds, "-5:30" is -270
    seconds. *)
Theorem timeToSeconds_no_range_check (h m s : jsstring) :
  colon ∉ h → colon ∉ m → colon ∉ s →
  timeToSeconds (VString (h ++ colon :: m ++ colon :: s))
  = Ok (Number h * 3600 + Number m * 60 + Number s)%float
  ∧ timeToSeconds (VString (m ++ colon :: s))
    = Ok (Number m * 60 + Number s)%float
  ∧ timeToSeconds (VString s) = Ok (Number s)
  ∧ timeToSeconds (VString (lit "99:99")) = Ok 6039%float
  ∧ timeToSeconds (VString (lit "00:99")) = Ok 99%float
  ∧ timeToSeconds (VString (lit "-5:30")) = Ok (-270)%float
  ∧ timeToSeconds (VString (lit "00:75:90")) = Ok 4590%float.
Proof.
  intros Hh Hm Hs.
  split; [by apply timeToSeconds_HHMMSS|].
  split; [by apply timeToSeconds_MMSS|].
  split; [by apply timeToSeconds_SS|].
  repeat split; vm_compute; reflexivity.
Qed.

Lemma timeToSeconds_no_range_check_witness :
  timeToSeconds (VString (lit "07:99:61")) = Ok (Number (lit "07") * 3600 + Number (lit "99") * 60 + Number (lit "61"))%float
  ∧ timeToSeconds (VString (lit "07:99:61")) = Ok 31201%float.
Proof.
  split.
  - apply (timeToSeconds_no_range_check (lit "07") (lit "99") (lit "61"));
      decide_closed.
  - vm_compute; reflexivity.
Defined.

(** ** The matcher and the pattern *)

Section Matcher.

Variable p : code_unit → bool.

Lemma star_inv (k : mstate → option captures) (s : jsstring) :
  ∀ i cs r,
    star p k i s cs = Some r →
    ∃ a b, s = a ++ b ∧ Forall (fun c => p c = true) a
           ∧ k (MState (i + length a) b cs) = Some r.
Proof.
  induction s as [|c s IH]; intros i cs r; simpl.
  - intros H. exists [], []. simpl. by rewrite Nat.add_0_r.
  - destruct (p c) eqn:Hc.
    + destruct (star p k (S i) s cs) as [r'|] eqn:Hs.
      * intros [= <-]. destruct (IH _ _ _ Hs) as (a & b & -> & Ha & Hk).
        exists (c :: a), b. simpl. rewrite Nat.add_succ_r. 
        split; [done|]. split; [by constructor|done].
      * intros H. exists [], (c :: s). simpl. by rewrite Nat.add_0_r.
    + intros H. exists [], (c :: s). simpl. by rewrite Nat.add_0_r.
Qed.

Lemma star_greedy (k : mstate → option captures) (s : jsstring) :
  (∀ m, is_Some (k m)) →
  ∀ i cs,
    ∃ a b, s = a ++ b ∧ Forall (fun c => p c = true) a
           ∧ match b with [] => True | c :: _ => p c = false end
           ∧ star p k i s cs = k (MState (i + length a) b cs).
Proof.
  intros Hk. induction s as [|c s IH]; intros i cs; simpl.
  - exists [], []. simpl. by rewrite Nat.add_0_r.
  - destruct (p c) eqn:Hc.
    + destruct (IH (S i) cs) as (a & b & -> & Ha & Hb & ->).
      exists (c :: a), b. simpl. rewrite Nat.add_succ_r.
      destruct (Hk (MState (S (i + length a)) b cs)) as [r ->].
      split; [done|]. split; [by constructor|done].
    + exists [], (c :: s). simpl. by rewrite Nat.add_0_r.
Qed.

Lemma star_caps (s : jsstring) :
  ∀ i cs, star p (fun m => Some (caps m)) i s cs = Some cs.
Proof.
  induction s as [|c s IH]; intros i cs; simpl; [done|].
  destruct (p c); [|done]. by rewrite IH.
Qed.

End Matcher.

Lemma chars_inv (l : jsstring) (k : mstate → option captures) :
  ∀ m r,
    run (fold_right (fun c r => Seq (Class (code_unit_eqb c)) r) Eps l) k m
    = Some r →
    ∃ t, rest m = l ++ t ∧ k (MState (pos m + length l) t (caps m)) = Some r.
Proof.
  induction l as [|c l IH]; intros m r; simpl.
  - intros H. exists (rest m). rewrite Nat.add_0_r. by destruct m.
  - destruct (rest m) as [|c' t'] eqn:Hr; [done|].
    unfold code_unit_eqb at 1. destruct (N.eqb_spec c c') as [<-|]; [|done].
    intros H. apply IH in H as (t & Ht & Hk). simpl in *. subst t'.
    exists t. split; [done|]. by rewrite Nat.add_succ_r.
Qed.

Lemma class_inv (p : code_unit → bool) (k : mstate → option captures) m r :
  run (Class p) k m = Some r →
  ∃ c t, rest m = c :: t ∧ p c = true
         ∧ k (MState (S (pos m)) t (caps m)) = Some r.
Proof.
  simpl. destruct (rest m) as [|c t]; [done|].
  destruct (p c) eqn:Hc; [|done]. intros H. by exists c, t.
Qed.

Lemma alt_inv (r1 r2 : regex) (k : mstate → option captures) m r :
  run (Alt r1 r2) k m = Some r →
  run r1 k m = Some r ∨ run r2 k m = Some r.
Proof. simpl. destruct (run r1 k m); [intros [= <-]; by left|by right]. Qed.

Lemma chars_class_chars_inv (s1 s2 : string) (p : code_unit → bool)
  (k : mstate → option captures) m r :
  run (Seq (chars s1) (Seq (Class p) (chars s2))) k m = Some r →
  ∃ c t, rest m = (lit s1 ++ c :: lit s2) ++ t ∧ p c = true
         ∧ k (MState (pos m + length (lit s1 ++ c :: lit s2)) t (caps m))
           = Some r.
Proof.
  cbn [run]. unfold chars. intros H.
  apply chars_inv in H as (t1 & Hr1 & H).
  apply class_inv in H as (c & t2 & Hr2 & Hc & H).
  apply chars_inv in H as (t3 & Hr3 & H).
  cbn [rest pos caps] in *. subst t1 t2.
  exists c, t3. split; [by rewrite Hr1, <- app_assoc|]. split; [done|].
  rewrite <- H. do 2 f_equal. rewrite length_app. simpl. lia.
Qed.

Lemma markers_inv (k : mstate → option captures) m r :
  run markers k m = Some r →
  ∃ mk t, rest m = mk ++ t ∧ marker mk
          ∧ k (MState (pos m + length mk) t (caps m)) = Some r.
Proof.
  unfold markers, marker. intros H.
  repeat (apply alt_inv in H as [H|H]).
  - apply chars_class_chars_inv in H as (c & t & Hr & Hc & H).
    exists (lit "youtu" ++ c :: lit "be/"), t. eauto 10.
  - apply chars_inv in H as (t & Hr & H). exists (lit "v/"), t. eauto 10.
  - apply chars_class_chars_inv in H as (c & t & Hr & Hc & H).
    exists (lit "u/" ++ c :: lit "/"), t. eauto 10.
  - apply chars_inv in H as (t & Hr & H). exists (lit "embed/"), t. eauto 10.
  - apply chars_inv in H as (t & Hr & H). exists (lit "watch?v="), t. eauto 10.
  - apply chars_inv in H as (t & Hr & H). exists (lit "&v="), t. eauto 10.
Qed.

(** The pattern is anchored: it only matches from index 0. *)
Lemma exec_from_anchored (s : jsstring) :
  ∀ i, exec_from regExp (S i) s = None.
Proof. induction s as [|c s IH]; intros i; simpl; [done|apply IH]. Qed.

(** What the pattern captures: the URL is a prefix without line
    terminators, a marker (group 1), the longest run of characters other
    than [#], [&] and [?] that follows it (group 2), and the rest. *)
Lemma regExp_capture (url : jsstring) (m : captures) :
  exec regExp url = Some m →
  ∃ pre rest,
    url = pre ++ group 1 m ++ group 2 m ++ rest
    ∧ Forall (fun c => dot c = true) pre
    ∧ marker (group 1 m)
    ∧ Forall (fun c => not_separator c = true) (group 2 m)
    ∧ match rest with [] => True | c :: _ => not_separator c = false end.
Proof.
  unfold exec. intros H.
  assert (Hrun : run regExp (fun m => Some (caps m)) (MState 0 url []) = Some m).
  { destruct url as [|c url]; cbn [exec_from] in H;
      [|rewrite exec_from_anchored in H]; by destruct (run regExp _ _). }
  clear H. unfold regExp in Hrun. cbn [run pos rest caps Nat.eqb] in Hrun.
  apply star_inv in Hrun as (pre & s1 & -> & Hpre & H).
  apply markers_inv in H as (mk & s2 & Hs1 & Hmk & H).
  cbn [run rest pos caps] in H, Hs1. subst s1.
  lazymatch type of H with
  | star ?p ?k ?j ?s ?cs = _ =>
      assert (Hk : ∀ m', is_Some (k m'))
        by (intros m'; rewrite star_caps; eauto);
      destruct (star_greedy p k s Hk j cs)
        as (tok & tl & -> & Htok & Htl & Hstar)
  end.
  rewrite Hstar in H. cbn [rest pos caps] in H. rewrite star_caps in H.
  injection H as <-. cbn [group Nat.eqb].
  exists pre, tl. split_and!; try done.
  - repeat f_equal.
    + rewrite <- (take_app_length mk (tok ++ tl)) at 1. f_equal. lia.
    + rewrite <- (take_app_length tok tl) at 1. f_equal. lia.
  - replace (take _ (mk ++ tok ++ tl)) with mk; [done|].
    rewrite <- (take_app_length mk (tok ++ tl)) at 1. f_equal. lia.
  - replace (take _ (tok ++ tl)) with tok; [done|].
    rewrite <- (take_app_length tok tl) at 1. f_equal. lia.
Qed.

Lemma getYouTubeId_examples :
  let id := Ok (Some (lit "dQw4w9WgXcQ")) in
  getYouTubeId (VString (lit "https://www.youtube.com/watch?v=dQw4w9WgXcQ")) = id
  ∧ getYouTubeId (VString (lit "https://youtu.be/dQw4w9WgXcQ")) = id
  ∧ getYouTubeId (VString (lit "https://www.youtube.com/embed/dQw4w9WgXcQ?rel=0")) = id
  ∧ getYouTubeId (VString (lit "https://www.youtube.com/watch?t=5&v=dQw4w9WgXcQ#top")) = id
  ∧ getYouTubeId (VString (lit "https://www.youtube.com/watch?v=dQw4w9WgXcQ12")) = Ok None
  ∧ getYouTubeId (VString (lit "https://youtu.be/short")) = Ok None
  ∧ getYouTubeId (VString (lit "https://example.com/video.mp4")) = Ok None
  ∧ getYouTubeId (VString (lit "")) = Ok None.
Proof. repeat split; vm_compute; reflexivity. Qed.

(** C9: identifier extraction is total on strings.  For every string,
    [getYouTubeId] returns (it does not throw) and what it returns is null
    or a string of exactly 11 code units, which is then the token that
    follows a marker in the URL; when the pattern matches and the token
    captured after the marker does not have exactly 11 code units, the
    result is null. *)
Theorem getYouTubeId_total (url : jsstring) :
  (getYouTubeId (VString url) = Ok None
   ∨ ∃ id, getYouTubeId (VString url) = Ok (Some id)
           ∧ length id = 11%nat
           ∧ ∃ pre mk rest, url = pre ++ mk ++ id ++ rest ∧ marker mk)
  ∧ (∀ m, exec regExp url = Some m → length (group 2 m) ≠ 11%nat →
          getYouTubeId (VString url) = Ok None).
Proof.
  unfold getYouTubeId. destruct (exec regExp url) as [m|] eqn:Hm.
  - destruct (Nat.eqb_spec (length (group 2 m)) 11) as [Hlen|Hlen].
    + split; [right|by intros m' [= <-] Hne].
      exists (group 2 m). split; [done|]. split; [done|].
      destruct (regExp_capture url m Hm) as (pre & tl & Hurl & _ & Hmk & _).
      by exists pre, (group 1 m), tl.
    + split; [by left|]. done.
  - split; [by left|]. done.
Qed.

Lemma getYouTubeId_total_witness :
  getYouTubeId (VString (lit "https://youtu.be/tooShort")) = Ok None.
Proof.
  destruct (getYouTubeId_total (lit "https://youtu.be/tooShort")) as [_ H].
  apply (H [(2%nat, lit "tooShort"); (1%nat, lit "youtu.be/")]).
  - vm_compute; reflexivity.
  - vm_compute; lia.
Defined.

(** * Properties of the main program *)

#[local] Arguments segmentFileName : simpl never.

(** [path.join] normalises what it joins: a repeated separator, a [.] or a
    [..] in an identifier changes the file that is named. *)
Lemma path_join_examples :
  path_join (lit ".youtube_cache") (lit "a//bbbbbbbb.mp4")
  = lit ".youtube_cache/a/bbbbbbbb.mp4"
  ∧ path_join (lit ".temp_segments/") (lit "clip.mp4")
    = lit ".temp_segments/clip.mp4"
  ∧ path_join (lit ".temp_segments") (lit "cut_segment_1_/../../x.mp4")
    = lit "x.mp4"
  ∧ path_join (lit "/srv/cache") (lit "../../../x.mp4") = lit "/x.mp4"
  ∧ path_join [] (lit "x.mp4") = lit "x.mp4".
Proof. repeat split; vm_compute; reflexivity. Qed.

(** Different spellings of one entry. *)
Lemma posix_locate_examples :
  let dir := [lit "work"; lit ".temp_segments"] in
  posix_locate Sample.cwd (lit ".temp_segments") = dir
  ∧ posix_locate Sample.cwd (lit ".temp_segments/") = dir
  ∧ posix_locate Sample.cwd (lit "./.temp_segments") = dir
  ∧ posix_locate Sample.cwd (lit "/work/.temp_segments") = dir
  ∧ posix_locate Sample.cwd (lit ".youtube_cache/../.temp_segments//") = dir.
Proof. repeat split; vm_compute; reflexivity. Qed.

(** [calculateDuration] only throws the errors of [timeToSeconds] and its
    own range error. *)
Lemma calculateDuration_range (startTime endTime : jsval) (s e : number) :
  timeToSeconds startTime = Ok s →
  timeToSeconds endTime = Ok e →
  calculateDuration startTime endTime
  = if (e <=? s)%float then Throw (EndNotAfterStart endTime startTime)
    else Ok (e - s)%float.
Proof. intros Hs He. unfold calculateDuration. by rewrite Hs, He. Qed.

(** Only a string has a number of seconds, and a string always converts to
    a string. *)
Lemma timeToSeconds_string (v : jsval) (n : number) :
  timeToSeconds v = Ok n → ∃ s, v = VString s.
Proof. destruct v; try done. eauto. Qed.

Lemma timeToSeconds_ToString (v : jsval) (n : number) :
  timeToSeconds v = Ok n → ToString v = Ok ().
Proof. intros H. by apply timeToSeconds_string in H as [s ->]. Qed.

(** A conversion to a string throws nothing but a [TypeError], and only on
    an object or an array. *)
Lemma ToString_throws (v : jsval) (e : exn) :
  ToString v = Throw e →
  e = TypeError ∧ getYouTubeId v = Throw TypeError.
Proof.
  destruct v; simpl; try done.
  - destruct (forallb _ _); [done|]. by intros [= <-].
  - destruct (lookup_prop _ _); [|done]. by intros [= <-].
Qed.

Lemma calculateDuration_times (startTime endTime : jsval) (d : number) :
  calculateDuration startTime endTime = Ok d →
  ∃ s e, timeToSeconds startTime = Ok s ∧ timeToSeconds endTime = Ok e.
Proof.
  unfold calculateDuration.
  destruct (timeToSeconds startTime) as [s|]; [|done].
  destruct (timeToSeconds endTime) as [e|]; [|done]. eauto.
Qed.

(** What the two commands of the cut stage do, case by case. *)
Lemma cut_promise_unfold (cfg : config) (w : env) (i : nat)
  (startTime endTime : jsval) (videoId : jsstring) (st : state) :
  let src := cachedVideoPath cfg videoId in
  let out := segmentOutputPath cfg i videoId in
  cut_promise cfg w i startTime endTime videoId st =
  match calculateDuration startTime endTime with
  | Throw e => Skip (emit (Log CuttingError) (emit (Log (DurationError e)) st))
  | Ok duration =>
      let st2 := written w (copyCut w i) out
                   (emit (CutCopy src startTime duration out) st) in
      if succeeded (copyCut w i) then Next (push out st2)
      else
        let st5 := written w (reencodeCut w i) out
                     (emit (CutReencode src startTime duration out)
                        (emit (Log CopyError) st2)) in
        if succeeded (reencodeCut w i) then Next (push out st5)
        else Skip (emit (Log CuttingError) (emit (Log ReencodeError) st5))
  end.
Proof.
  unfold cut_promise.
  destruct (calculateDuration startTime endTime); done.
Qed.

(** With time fields that have a number of seconds, the announcement of the
    cut does not throw. *)
Lemma cut_unfold (cfg : config) (w : env) (i : nat) (task : jsval)
  (videoId : jsstring) (st : state) (startTime endTime : jsval)
  (s e : number) :
  get_field task (lit "startTime") = Ok startTime →
  get_field task (lit "endTime") = Ok endTime →
  timeToSeconds startTime = Ok s →
  timeToSeconds endTime = Ok e →
  cut cfg w i task videoId st
  = cut_promise cfg w i startTime endTime videoId st.
Proof.
  intros Hs He Hts Hte. unfold cut.
  rewrite Hs, He. cbn [unguarded].
  by rewrite (timeToSeconds_ToString _ _ Hts), (timeToSeconds_ToString _ _ Hte).
Qed.

Lemma written_fs (w : env) (o : outcome) (p : path) (q : location)
  (st : state) :
  q ∈ fs st → q ∈ fs (written w o p st).
Proof. unfold written. simpl. destruct (writes o); set_solver. Qed.

(** The loop never deletes a file. *)
Lemma fetch_fs cfg w i u videoId st (q : location) :
  q ∈ fs st → q ∈ fs (state_of (fetch cfg w i u videoId st)).
Proof.
  intros Hq. unfold fetch.
  repeat case_match; simpl; try done; destruct (writes _); set_solver.
Qed.

Lemma cut_promise_fs cfg w i a b videoId st (q : location) :
  q ∈ fs st → q ∈ fs (state_of (cut_promise cfg w i a b videoId st)).
Proof.
  intros Hq. unfold cut_promise.
  repeat case_match; simpl; try done;
    repeat (destruct (writes _)); set_solver.
Qed.

Lemma cut_fs cfg w i task videoId st (q : location) :
  q ∈ fs st → q ∈ fs (state_of (cut cfg w i task videoId st)).
Proof.
  intros Hq. unfold cut, unguarded.
  repeat case_match; try done. by apply cut_promise_fs.
Qed.

Lemma process_task_fs cfg w i task st (q : location) :
  q ∈ fs st → q ∈ fs (state_of (process_task cfg w i task st)).
Proof.
  intros Hq. unfold process_task, unguarded.
  destruct (get_field task (lit "url")) as [url|]; [|done].
  destruct (ToString url); [|done].
  destruct (getYouTubeId url) as [[videoId|]|]; [|done..].
  destruct url; try done.
  pose proof (fetch_fs cfg w i s videoId st q Hq) as Hf.
  destruct (fetch cfg w i s videoId st); try done.
  by apply cut_fs.
Qed.

(** C5: the cut stage of a request whose range is valid.  The stream-copy
    command is started first; the re-encode command is started if and only
    if the copy fails, on the same source with the same start time and the
    same duration; the request is skipped as a cutting error exactly when
    both fail, and otherwise its segment path is appended to the list; in
    every case the cached source file is still there. *)
Theorem cut_copy_then_reencode (cfg : config) (w : env) (i : nat)
  (task : jsval) (videoId : jsstring) (st : state)
  (startTime endTime : jsval) (duration : number) :
  get_field task (lit "startTime") = Ok startTime →
  get_field task (lit "endTime") = Ok endTime →
  calculateDuration startTime endTime = Ok duration →
  locate w (cachedVideoPath cfg videoId) ∈ fs st →
  let src := cachedVideoPath cfg videoId in
  let out := segmentOutputPath cfg i videoId in
  let copy := CutCopy src startTime duration out in
  let reencode := CutReencode src startTime duration out in
  let fl := cut cfg w i task videoId st in
  trace (state_of fl)
  = trace st ++
    (if succeeded (copyCut w i) then [copy]
     else if succeeded (reencodeCut w i)
          then [copy; Log CopyError; reencode]
          else [copy; Log CopyError; reencode;
                Log ReencodeError; Log CuttingError])
  ∧ ((∃ st', fl = Skip st')
     ↔ succeeded (copyCut w i) = false ∧ succeeded (reencodeCut w i) = false)
  ∧ ((∃ st', fl = Next st'
             ∧ cutSegmentPaths st' = cutSegmentPaths st ++ [out])
     ↔ succeeded (copyCut w i) = true ∨ succeeded (reencodeCut w i) = true)
  ∧ cutSegmentPaths (state_of fl)
    = cutSegmentPaths st
      ++ (if succeeded (copyCut w i) || succeeded (reencodeCut w i)
          then [out] else [])
  ∧ locate w src ∈ fs (state_of fl).
Proof.
  intros Hs He Hd Hsrc src out copy reencode fl.
  destruct (calculateDuration_times _ _ _ Hd) as (s & e & Hts & Hte).
  split_and!; [| | | |by apply cut_fs].
  all: subst fl; rewrite (cut_unfold _ _ _ _ _ _ _ _ _ _ Hs He Hts Hte).
  all: rewrite cut_promise_unfold, Hd; cbn zeta.
  all: destruct (succeeded (copyCut w i)) eqn:Hc;
       [|destruct (succeeded (reencodeCut w i)) eqn:Hr]; simpl.
  all: rewrite <- ?app_assoc; simpl; try done.
  all: try (split; [intros [st' H]; by inversion H| intros [? ?]; done]).
  all: try (split; [intros [st' [H _]]; by inversion H| intros [?|?]; done]).
  all: try (split; [by auto | intros _; eexists; split; [reflexivity|done]]).
  all: try (split; [done | intros _; by eexists]).
  by rewrite app_nil_r.
Qed.

Lemma cut_invalid_range (cfg : config) (w : env) (i : nat) (task : jsval)
  (videoId : jsstring) (st : state) (startTime endTime : jsval)
  (s e : number) :
  get_field task (lit "startTime") = Ok startTime →
  get_field task (lit "endTime") = Ok endTime →
  timeToSeconds startTime = Ok s →
  timeToSeconds endTime = Ok e →
  (e <=? s)%float = true →
  cut cfg w i task videoId st
  = Skip (emit (Log CuttingError)
            (emit (Log (DurationError (EndNotAfterStart endTime startTime)))
               st)).
Proof.
  intros Hs He Hts Hte Hle.
  rewrite (cut_unfold _ _ _ _ _ _ _ _ _ _ Hs He Hts Hte), cut_promise_unfold.
  by rewrite (calculateDuration_range _ _ _ _ Hts Hte), Hle.
Qed.

(** The events added on top of a trace. *)
Lemma added_app (st st' : state) (evs : list event) :
  trace st' = trace st ++ evs → added st st' = evs.
Proof. intros H. unfold added. by rewrite H, drop_app_length. Qed.

Ltac added_events :=
  unfold added; cbn [emit written trace];
  rewrite <- ?app_assoc; rewrite drop_app_length; cbn [app].

(** C3, as the claim states it, fails: the range is checked when the first
    ffmpeg command is built, which is after the download.  The request
    below ends before it starts and its video is not in the cache: yt-dlp
    is started, and only then is the range error raised. *)
Lemma invalid_range_downloads_first :
  let task := Sample.task Sample.url "00:00:10" "00:00:05" in
  let w := Sample.all_fine [task] in
  timeToSeconds (VString (lit "00:00:10")) = Ok 10%float
  ∧ timeToSeconds (VString (lit "00:00:05")) = Ok 5%float
  ∧ (5 <=? 10)%float = true
  ∧ trace (state_of (process_task Sample.cfg w 0 task (Sample.start ∅)))
    = [Download (lit Sample.url)
         (lit ".youtube_cache/FZLadzn5i6Q.mp4");
       Log (DurationError
              (EndNotAfterStart (VString (lit "00:00:05"))
                                (VString (lit "00:00:10"))));
       Log CuttingError].
Proof. repeat split; vm_compute; reflexivity. Qed.

(** C3, amended: no ffmpeg command is started for a request whose end time
    is not after its start time, and it produces no clip.  The range error
    is raised exactly when the request reaches the cut stage, that is when
    its URL gives an identifier and the video is in the cache or its
    download succeeds; it is raised while the first ffmpeg command is
    built, so after the download: for a video that is not cached, yt-dlp
    has been started before the range is looked at.  A request whose URL
    gives no identifier, or whose download fails, is skipped for that
    reason and its range is never looked at. *)
Theorem invalid_range_rejected_before_cut (cfg : config) (w : env) (i : nat)
  (task : jsval) (st : state) (startTime endTime : jsval) (s e : number) :
  get_field task (lit "startTime") = Ok startTime →
  get_field task (lit "endTime") = Ok endTime →
  timeToSeconds startTime = Ok s →
  timeToSeconds endTime = Ok e →
  (e <=? s)%float = true →
  let fl := process_task cfg w i task st in
  let range_error := Log (DurationError (EndNotAfterStart endTime startTime)) in
  let rejected := [range_error; Log CuttingError] in
  List.filter is_cut (trace (state_of fl)) = List.filter is_cut (trace st)
  ∧ cutSegmentPaths (state_of fl) = cutSegmentPaths st
  ∧ (∀ st', fl ≠ Next st')
  ∧ (∀ u videoId,
       get_field task (lit "url") = Ok (VString u) →
       getYouTubeId (VString u) = Ok (Some videoId) →
       let p := cachedVideoPath cfg videoId in
       (∃ st', fl = Skip st')
       ∧ added st (state_of fl)
         = if pathExists w p st then rejected
           else Download u p ::
                  (if succeeded (youtubedl w i) then rejected
                   else [Log (DownloadError u)]))
  ∧ (∀ url,
       get_field task (lit "url") = Ok url →
       getYouTubeId url = Ok None →
       (∃ st', fl = Skip st')
       ∧ added st (state_of fl) = [Log (NoVideoId url)])
  ∧ (∀ url err,
       get_field task (lit "url") = Ok url →
       getYouTubeId url = Throw err →
       fl = Uncaught err st)
  ∧ (range_error ∈ added st (state_of fl)
     ↔ ∃ u videoId,
         get_field task (lit "url") = Ok (VString u)
         ∧ getYouTubeId (VString u) = Ok (Some videoId)
         ∧ (pathExists w (cachedVideoPath cfg videoId) st = true
            ∨ succeeded (youtubedl w i) = true)).
Proof.
  intros Hs He Hts Hte Hle fl range_error rejected.
  assert (Hcut : ∀ videoId st1,
            cut cfg w i task videoId st1
            = Skip (emit (Log CuttingError) (emit range_error st1))).
  { intros videoId st1.
    exact (cut_invalid_range _ _ _ _ _ _ _ _ _ _ Hs He Hts Hte Hle). }
  assert (Hnil : ∀ ev : event, ev ∈ added st st → False).
  { intros ev. unfold added. rewrite drop_all. by intros ?%elem_of_nil. }
  subst fl. unfold process_task, unguarded.
  destruct (get_field task (lit "url")) as [url|err] eqn:Hurl.
  2: { refine (conj _ (conj _ (conj _ (conj _ (conj _ (conj _ _)))))); try done.
       split; [by intros ?%Hnil|by intros (? & ? & ? & _)]. }
  destruct (ToString url) eqn:Hstr.
  2: { (* only a string is matched against the pattern *)
       apply ToString_throws in Hstr as [-> Hid].
       refine (conj _ (conj _ (conj _ (conj _ (conj _ (conj _ _)))))); try done.
       - intros u v [= ->]. by rewrite Hid.
       - intros url' [= <-]. by rewrite Hid.
       - intros url' err [= <-]. rewrite Hid. by intros [= <-].
       - split; [by intros ?%Hnil|].
         intros (? & ? & [= ->] & Hid' & _). by rewrite Hid in Hid'. }
  destruct (getYouTubeId url) as [[videoId|]|err] eqn:Hid.
  - (* the URL gives an identifier *)
    destruct url as [| | | |u| |]; try done.
    unfold fetch.
    destruct (pathExists w (cachedVideoPath cfg videoId) st) eqn:Hex;
      [|destruct (succeeded (youtubedl w i)) eqn:Hdl].
    all: rewrite ?Hcut; cbn [state_of emit written trace cutSegmentPaths].
    all: rewrite <- ?app_assoc; cbn [app].
    all: refine (conj _ (conj _ (conj _ (conj _ (conj _ (conj _ _)))))).
    all: try (by rewrite List.filter_app, app_nil_r).
    all: try done.
    all: try (intros u' v' [= <-]; rewrite Hid; intros [= <-]; cbn zeta;
              rewrite Hex, ?Hdl; split; [by eexists|by added_events]).
    all: try (intros url' [= <-]; by rewrite Hid).
    all: try (intros url' err [= <-]; by rewrite Hid).
    all: added_events.
    + split; [intros _; exists u, videoId; by auto|intros _; by left].
    + split; [intros _; exists u, videoId; by auto|].
      intros _. right. by left.
    + split.
      * intros Hin. apply elem_of_cons in Hin as [?|Hin]; [done|].
        apply elem_of_cons in Hin as [?|Hin]; [done|].
        by apply elem_of_nil in Hin.
      * intros (u' & v' & [= <-] & Hid' & Hor). rewrite Hid in Hid'.
        injection Hid' as <-. rewrite Hex in Hor. by destruct Hor.
  - (* the URL gives no identifier *)
    cbn beta iota. cbn [state_of emit trace cutSegmentPaths].
    refine (conj _ (conj _ (conj _ (conj _ (conj _ (conj _ _)))))).
    + by rewrite List.filter_app, app_nil_r.
    + done.
    + done.
    + intros u' v' [= ->]. by rewrite Hid.
    + intros url' [= <-] _. split; [by eexists|by added_events].
    + intros url' err [= <-]. by rewrite Hid.
    + added_events. split.
      * intros Hin. apply elem_of_cons in Hin as [?|Hin]; [done|].
        by apply elem_of_nil in Hin.
      * intros (u' & v' & [= ->] & Hid' & _). by rewrite Hid in Hid'.
  - cbn [state_of].
    refine (conj _ (conj _ (conj _ (conj _ (conj _ (conj _ _)))))); try done.
    + intros u' v' [= ->]. by rewrite Hid.
    + intros url' [= <-]. by rewrite Hid.
    + intros url' err' [= <-]. rewrite Hid. by intros [= <-].
    + split; [by intros ?%Hnil|].
      intros (u' & v' & [= ->] & Hid' & _). by rewrite Hid in Hid'.
Qed.

(** ** The events of one iteration *)

Lemma filter_none {A} (f : A → bool) (l evs : list A) :
  Forall (fun e => f e = false) evs →
  List.filter f (l ++ evs) = List.filter f l.
Proof.
  intros H. rewrite List.filter_app.
  replace (List.filter f evs) with (@nil A); [by rewrite app_nil_r|].
  induction H as [|e evs He _ IH]; simpl; [done|]. by rewrite He.
Qed.

Ltac trace_events :=
  repeat case_match; simpl; rewrite <- ?app_assoc; simpl;
  eexists; (split; [reflexivity|]); repeat constructor.

Lemma fetch_trace cfg w i u videoId st :
  ∃ evs, trace (state_of (fetch cfg w i u videoId st)) = trace st ++ evs
         ∧ Forall (fun e => is_cut e = false ∧ is_merge e = false) evs.
Proof.
  unfold fetch.
  destruct (pathExists _ _ _); [exists []; by rewrite app_nil_r|].
  trace_events.
Qed.

Lemma cut_promise_trace cfg w i a b videoId st :
  ∃ evs, trace (state_of (cut_promise cfg w i a b videoId st)) = trace st ++ evs
         ∧ Forall (fun e => is_download e = false ∧ is_merge e = false) evs.
Proof. unfold cut_promise. trace_events. Qed.

Lemma cut_trace cfg w i task videoId st :
  ∃ evs, trace (state_of (cut cfg w i task videoId st)) = trace st ++ evs
         ∧ Forall (fun e => is_download e = false ∧ is_merge e = false) evs.
Proof.
  unfold cut, unguarded.
  repeat case_match; try (exists []; by rewrite app_nil_r).
  apply cut_promise_trace.
Qed.

Lemma process_task_trace cfg w i task st :
  ∃ evs, trace (state_of (process_task cfg w i task st)) = trace st ++ evs
         ∧ Forall (fun e => is_merge e = false) evs.
Proof.
  unfold process_task, unguarded.
  destruct (get_field task (lit "url")) as [url|];
    [|exists []; by rewrite app_nil_r].
  destruct (ToString url); [|exists []; by rewrite app_nil_r].
  destruct (getYouTubeId url) as [[videoId|]|];
    [|trace_events|exists []; by rewrite app_nil_r].
  destruct url; try trace_events.
  destruct (fetch_trace cfg w i s videoId st) as (evs1 & H1 & F1).
  destruct (fetch cfg w i s videoId st) as [st1|st1|e st1]; simpl in H1.
  - destruct (cut_trace cfg w i task videoId st1) as (evs2 & H2 & F2).
    exists (evs1 ++ evs2). rewrite H2, H1, app_assoc. split; [done|].
    apply Forall_app. split.
    + apply (Forall_impl _ _ _ F1). by intros ? [_ ?].
    + apply (Forall_impl _ _ _ F2). by intros ? [_ ?].
  - exists evs1. split; [done|]. apply (Forall_impl _ _ _ F1). by intros ? [_ ?].
  - exists evs1. split; [done|]. apply (Forall_impl _ _ _ F1). by intros ? [_ ?].
Qed.

(** An entry with a property that can be read is an object, and every
    property of an object can be read. *)
Lemma get_field_object (task : jsval) (k k' : jsstring) (v : jsval) :
  get_field task k = Ok v → ∃ v', get_field task k' = Ok v'.
Proof. destruct task; simpl; intros; try done; eauto. Qed.

(** The fetch stage looks at nothing but the existence of the file. *)
Lemma fetch_cached cfg w i u videoId st :
  pathExists w (cachedVideoPath cfg videoId) st = true →
  fetch cfg w i u videoId st = Next st.
Proof. intros H. unfold fetch. by rewrite H. Qed.

(** What is there stays there as long as no file is deleted, and a tool
    that leaves a file makes its path exist. *)
Lemma pathExists_mono (w : env) (p : path) (st st' : state) :
  (∀ q, q ∈ fs st → q ∈ fs st') →
  pathExists w p st = true → pathExists w p st' = true.
Proof.
  intros Hsub. unfold pathExists. rewrite !orb_true_iff, !bool_decide_eq_true.
  intros [(l & Hl & Hpre)|Hdir]; [left|by right].
  exists l. auto.
Qed.

Lemma pathExists_written (w : env) (o : outcome) (p : path) (st : state) :
  writes o = true → pathExists w p (written w o p st) = true.
Proof.
  intros Hw. unfold pathExists, written. rewrite Hw. cbn [fs].
  apply orb_true_iff. left. apply bool_decide_eq_true.
  exists (locate w p). split; [set_solver|done].
Qed.

(** The downloads of one request whose URL gives an identifier, and what
    they leave at the cache path. *)
Lemma process_task_fetch cfg w i task u videoId st :
  get_field task (lit "url") = Ok (VString u) →
  getYouTubeId (VString u) = Ok (Some videoId) →
  let p := cachedVideoPath cfg videoId in
  let fl := process_task cfg w i task st in
  (∃ evs, trace (state_of fl) = trace st ++ evs
          ∧ List.filter is_download evs
            = if pathExists w p st then [] else [Download u p])
  ∧ pathExists w p (state_of fl)
    = pathExists w p st || writes (youtubedl w i)
  ∧ (pathExists w p st = false → writes (youtubedl w i) = false →
     ∃ st', fl = Skip st').
Proof.
  intros Hu Hid p fl.
  assert (Hmono : pathExists w p st = true →
                  pathExists w p (state_of fl) = true).
  { apply pathExists_mono. intros q. apply process_task_fs. }
  subst fl. revert Hmono. unfold process_task, unguarded.
  rewrite Hu. cbn [ToString]. rewrite Hid. unfold fetch. fold p.
  destruct (pathExists w p st) eqn:Hex; intros Hmono.
  - destruct (cut_trace cfg w i task videoId st) as (evs & Ht & F).
    split_and!; [|by rewrite Hmono|done].
    exists evs. split; [done|].
    rewrite <- (app_nil_l evs), filter_none; [done|].
    apply (Forall_impl _ _ _ F). by intros ? [? _].
  - clear Hmono.
    destruct (youtubedl w i) as [|[]] eqn:Hdl; cbn [succeeded writes orb].
    + set (st1 := written w Succeeded p (emit (Download u p) st)).
      destruct (cut_trace cfg w i task videoId st1) as (evs & Ht & F).
      split_and!; [| |done].
      * exists (Download u p :: evs). rewrite Ht. simpl. rewrite <- app_assoc.
        split; [done|]. f_equal.
        rewrite <- (app_nil_l evs), filter_none; [done|].
        apply (Forall_impl _ _ _ F). by intros ? [? _].
      * apply (pathExists_mono w p st1); [intros q; apply cut_fs|].
        by apply pathExists_written.
    + cbn [state_of].
      split_and!; [| |done].
      * exists [Download u p; Log (DownloadError u)].
        simpl. by rewrite <- app_assoc.
      * apply (pathExists_mono w p
                 (written w (Failed true) p (emit (Download u p) st)));
          [done|by apply pathExists_written].
    + cbn [state_of].
      split_and!; [|exact Hex|by eauto].
      exists [Download u p; Log (DownloadError u)].
      simpl. by rewrite <- app_assoc.
Qed.

(** C4, as the claim states it, fails: what decides whether a request
    downloads is whether the file is in the cache, not whether an earlier
    request had the same identifier.  In the run below the two requests
    have the same identifier, the first download fails and leaves no
    file: the first request is skipped and the second one starts yt-dlp
    again, for the same cache path. *)
Lemma same_identifier_downloaded_twice :
  let w := Sample.first_download_fails Sample.twice in
  let fl := loop Sample.cfg w 0 Sample.twice (Sample.start ∅) in
  let p := cachedVideoPath Sample.cfg Sample.videoId in
  getYouTubeId (VString (lit Sample.url)) = Ok (Some Sample.videoId)
  ∧ getYouTubeId (VString (lit Sample.url_embed)) = Ok (Some Sample.videoId)
  ∧ List.filter is_download (trace (state_of fl))
    = [Download (lit Sample.url) p; Download (lit Sample.url_embed) p].
Proof. repeat split; vm_compute; reflexivity. Qed.

(** C4, amended: for two consecutive requests with the same identifier,
    the cache file alone decides how many downloads there are.  None, when
    the file is at the cache path at the start; one, by the first request,
    when it is not and the first download leaves a file there, whether
    yt-dlp reported success or not; two, for the same cache path, when the
    first download leaves no file: the first request is then skipped.
    Whenever the file is there after the first request, the fetch stage of
    the second is a no-op on that same path: no download, no event, no look
    at the file beyond its existence. *)
Theorem fetch_by_cache_file (cfg : config) (w : env) (i : nat)
  (task1 task2 : jsval) (u1 u2 videoId : jsstring) (st : state) :
  get_field task1 (lit "url") = Ok (VString u1) →
  get_field task2 (lit "url") = Ok (VString u2) →
  getYouTubeId (VString u1) = Ok (Some videoId) →
  getYouTubeId (VString u2) = Ok (Some videoId) →
  let p := cachedVideoPath cfg videoId in
  let fl1 := process_task cfg w i task1 st in
  List.filter is_download (added st (state_of (loop cfg w i [task1; task2] st)))
  = (if pathExists w p st then []
     else if writes (youtubedl w i) then [Download u1 p]
     else [Download u1 p; Download u2 p])
  ∧ (pathExists w p st = false → writes (youtubedl w i) = false →
     ∃ st1, fl1 = Skip st1)
  ∧ pathExists w p (state_of fl1)
    = pathExists w p st || writes (youtubedl w i)
  ∧ (∀ w' j st1,
       pathExists w' p st1 = true →
       fetch cfg w' j u2 videoId st1 = Next st1
       ∧ process_task cfg w' j task2 st1 = cut cfg w' j task2 videoId st1).
Proof.
  intros Hu1 Hu2 Hid1 Hid2 p fl1.
  destruct (process_task_fetch cfg w i task1 u1 videoId st Hu1 Hid1)
    as ((evs1 & Ht1 & Hd1) & Hfs1 & Hskip1).
  fold p fl1 in Ht1, Hd1, Hfs1, Hskip1.
  split_and!; [|done|done|].
  2: { intros w' j st1 Hex. split; [by apply fetch_cached|].
       unfold process_task, unguarded. rewrite Hu2. cbn [ToString].
       by rewrite Hid2, fetch_cached. }
  cbn [loop]. fold fl1.
  assert (Hend : ∀ st1,
    state_of fl1 = st1 →
    List.filter is_download
      (added st (state_of (process_task cfg w (S i) task2 st1)))
    = List.filter is_download evs1
      ++ (if pathExists w p st1 then [] else [Download u2 p])).
  { intros st1 Hst1. rewrite Hst1 in Ht1.
    destruct (process_task_fetch cfg w (S i) task2 u2 videoId st1 Hu2 Hid2)
      as ((evs2 & Ht2 & Hd2) & _ & _).
    fold p in Hd2. unfold added. rewrite Ht2, Ht1.
    rewrite <- app_assoc, drop_app_length.
    by rewrite List.filter_app, Hd2. }
  assert (Hstop : List.filter is_download (added st (state_of fl1))
                  = List.filter is_download evs1).
  { unfold added. by rewrite Ht1, drop_app_length. }
  pose proof Hfs1 as Hex1.
  destruct fl1 as [st1|st1|e st1] eqn:Hfl1; cbn [state_of] in *.
  - destruct (process_task cfg w (S i) task2 st1) eqn:H2;
      cbn [loop state_of];
      pose proof (Hend st1 eq_refl) as H; rewrite H2 in H; cbn [state_of] in H;
      rewrite H, Hd1, Hex1;
      destruct (pathExists w p st); [done| |done| |done|];
      by destruct (writes (youtubedl w i)).
  - destruct (process_task cfg w (S i) task2 st1) eqn:H2;
      cbn [loop state_of];
      pose proof (Hend st1 eq_refl) as H; rewrite H2 in H; cbn [state_of] in H;
      rewrite H, Hd1, Hex1;
      destruct (pathExists w p st); [done| |done| |done|];
      by destruct (writes (youtubedl w i)).
  - rewrite Hstop, Hd1.
    destruct (pathExists w p st) eqn:Hex; [done|].
    destruct (writes (youtubedl w i)) eqn:Hw; [done|].
    by destruct (Hskip1 eq_refl eq_refl).
Qed.

(** ** The loop as a whole *)

Lemma loop_not_skip cfg w (videoTasks : list jsval) :
  ∀ i st st', loop cfg w i videoTasks st ≠ Skip st'.
Proof.
  induction videoTasks as [|task rest IH]; intros i st st'; simpl; [done|].
  destruct (process_task cfg w i task st); try done; apply IH.
Qed.

Lemma loop_trace cfg w (videoTasks : list jsval) :
  ∀ i st,
    ∃ evs, trace (state_of (loop cfg w i videoTasks st)) = trace st ++ evs
           ∧ Forall (fun e => is_merge e = false) evs.
Proof.
  induction videoTasks as [|task rest IH]; intros i st; simpl.
  { exists []. by rewrite app_nil_r. }
  destruct (process_task_trace cfg w i task st) as (evs1 & H1 & F1).
  destruct (process_task cfg w i task st) as [st1|st1|e st1]; simpl in H1.
  1,2: destruct (IH (S i) st1) as (evs2 & H2 & F2);
       exists (evs1 ++ evs2); rewrite H2, H1, app_assoc;
       split; [done|by apply Forall_app].
  by exists evs1.
Qed.

Lemma loop_fs cfg w (videoTasks : list jsval) (q : location) :
  ∀ i st, q ∈ fs st → q ∈ fs (state_of (loop cfg w i videoTasks st)).
Proof.
  induction videoTasks as [|task rest IH]; intros i st Hq; simpl; [done|].
  pose proof (process_task_fs cfg w i task st q Hq) as H1.
  destruct (process_task cfg w i task st); simpl in H1; auto.
Qed.

(** ** The check of the input *)

Lemma truthy_field (task : jsval) (k : jsstring) (v : jsval) :
  get_field task k = Ok v → truthy v = true → has_field task k.
Proof.
  destruct task; simpl; try (intros [= <-]; done).
  destruct (lookup_prop k props) as [v'|] eqn:E; simpl.
  - intros _ _. by exists props, v'.
  - by intros [= <-].
Qed.

Lemma incomplete_false (task : jsval) :
  incomplete task = Ok false →
  Forall (has_field task) required_fields.
Proof.
  unfold incomplete.
  destruct (get_field task (lit "url")) as [url|] eqn:Hu; simpl; [|done].
  destruct (truthy url) eqn:Tu; simpl; [|done].
  destruct (get_field task (lit "startTime")) as [a|] eqn:Ha; simpl; [|done].
  destruct (truthy a) eqn:Ta; simpl; [|done].
  destruct (get_field task (lit "endTime")) as [b|] eqn:Hb; simpl; [|done].
  destruct (truthy b) eqn:Tb; simpl; [|done]. intros _.
  repeat constructor; eauto using truthy_field.
Qed.

Lemma some_false (f : jsval → result bool) (l : list jsval) :
  some f l = Ok false → Forall (fun x => f x = Ok false) l.
Proof.
  induction l as [|x l IH]; simpl; [constructor|].
  destruct (f x) as [[]|] eqn:Hx; simpl; try done.
  intros H. constructor; auto.
Qed.

Lemma read_tasks_complete (w : env) (videoTasks : list jsval) :
  read_tasks w = Ok videoTasks →
  inputFile w = Some (VArray videoTasks)
  ∧ Forall (fun task => Forall (has_field task) required_fields) videoTasks.
Proof.
  unfold read_tasks. destruct (inputFile w) as [[| | | | |l|]|]; try done.
  destruct (some incomplete l) as [[]|] eqn:Hs; simpl; try done.
  intros [= <-]. split; [done|].
  apply some_false in Hs. eapply Forall_impl; [exact Hs|].
  intros task. apply incomplete_false.
Qed.

Lemma fs_emptyDir_subseteq (r : removal) (dir : location) (fs0 : files) :
  fs_emptyDir r dir fs0 ⊆ fs0.
Proof. unfold fs_emptyDir. intros p Hp. by apply elem_of_filter in Hp as [_ ?]. Qed.

Lemma fs_remove_subseteq (r : removal) (dir : location) (fs0 : files) :
  fs_remove r dir fs0 ⊆ fs0.
Proof. unfold fs_remove. intros p Hp. by apply elem_of_filter in Hp as [_ ?]. Qed.

(** C8: the input is checked as a whole.  If any entry of the task list
    lacks the url, the startTime or the endTime field, the process exits
    with code 1 before the loop: no download, no cut and no merge is
    started, no clip is recorded and no file is created. *)
Theorem missing_field_rejects_batch (cfg : config) (w : env) (fs0 : files)
  (videoTasks : list jsval) (task : jsval) (k : jsstring) :
  inputFile w = Some (VArray videoTasks) →
  task ∈ videoTasks →
  k ∈ required_fields →
  ¬ has_field task k →
  let r := main cfg w fs0 in
  (∃ e, read_tasks w = Throw e)
  ∧ status r = Exited 1
  ∧ List.filter is_processing (trace (final r)) = []
  ∧ cutSegmentPaths (final r) = []
  ∧ fs (final r) ⊆ fs0.
Proof.
  intros Hin Htask Hk Hmiss r.
  assert (Hread : ∃ e, read_tasks w = Throw e).
  { destruct (read_tasks w) as [l|e] eqn:Hr; [|by eauto].
    apply read_tasks_complete in Hr as [Hin' Hall].
    rewrite Hin in Hin'. injection Hin' as <-.
    rewrite Forall_forall in Hall. specialize (Hall task Htask).
    rewrite Forall_forall in Hall. destruct Hmiss. by apply Hall. }
  destruct Hread as [e Hread]. split; [by eauto|].
  subst r. unfold main. rewrite Hread.
  repeat case_match; simpl; split_and!; try done.
  all: apply fs_emptyDir_subseteq.
Qed.

(** ** The end of the run *)

Lemma checked_no_merge (cfg : config) (w : env) (fs0 : files) :
  List.filter is_merge (trace (checked cfg w fs0)) = [].
Proof. done. Qed.

Lemma loop_no_merge (cfg : config) (w : env) (videoTasks : list jsval)
  (fs0 : files) :
  List.filter is_merge
    (trace (state_of (loop cfg w 0 videoTasks (checked cfg w fs0)))) = [].
Proof.
  destruct (loop_trace cfg w videoTasks 0 (checked cfg w fs0)) as (evs & -> & F).
  by rewrite filter_none.
Qed.

(** The scenario of the specification: no request resolves to an
    identifier. *)
Lemma loop_all_unresolved cfg w (videoTasks : list jsval) :
  Forall (fun task => ∃ url, get_field task (lit "url") = Ok url
                             ∧ getYouTubeId url = Ok None) videoTasks →
  ∀ i st, ∃ st', loop cfg w i videoTasks st = Next st'
                 ∧ cutSegmentPaths st' = cutSegmentPaths st
                 ∧ fs st' = fs st.
Proof.
  induction 1 as [|task rest (url & Hu & Hid) _ IH]; intros i st; simpl.
  { by exists st. }
  assert (Hstr : ∃ u, url = VString u) by (destruct url; try done; eauto).
  destruct Hstr as [u ->].
  unfold process_task, unguarded. rewrite Hu. cbn [ToString]. rewrite Hid.
  destruct (IH (S i) (emit (Log (NoVideoId (VString u))) st))
    as (st' & -> & Hc & Hf).
  by exists st'.
Qed.

(** C7: a run in which no request produces a clip.  The list is empty
    after the loop, so the merge is never started and the list stays empty.
    The process exits with code 0 in verbose mode, where nothing is
    removed, and when the removal of the temporary directory resolves.
    That removal is not inside a [try], unlike the same call of step 6: when
    it rejects, so does [main], and the exit with code 0 is not reached. *)
Theorem empty_result_removal_unguarded (cfg : config) (w : env) (fs0 : files)
  (videoTasks : list jsval) (st : state) :
  ffmpegFound w = true → ytdlpFound w = true →
  ensureDirs w = true → completed (emptyTemp w) = true →
  read_tasks w = Ok videoTasks →
  loop cfg w 0 videoTasks (checked cfg w fs0) = Next st →
  cutSegmentPaths st = [] →
  let r := main cfg w fs0 in
  List.filter is_merge (trace (final r)) = []
  ∧ trace (final r) = trace st ++ [Log NothingToJoin]
  ∧ cutSegmentPaths (final r) = []
  ∧ status r = (if verbose cfg || completed (removeTemp w)
                then Exited 0 else Rejected IOError).
Proof.
  intros Hff Hyt Hdirs Hempt Hread Hloop Hempty r.
  pose proof (loop_no_merge cfg w videoTasks fs0) as Hnm.
  rewrite Hloop in Hnm. simpl in Hnm.
  subst r. unfold main. rewrite Hff, Hyt, Hdirs, Hempt, Hread, Hloop. simpl.
  rewrite bool_decide_eq_true_2 by done. unfold nothing_to_join.
  destruct (verbose cfg) eqn:Hv; [|destruct (completed (removeTemp w))]; simpl.
  all: by rewrite List.filter_app, Hnm, Hempty.
Qed.

(** C6, as the claim states it, fails: the program has no code that
    removes the output file.  In the run below the one request is cut, the
    concatenation fails and leaves a partial file at the output path; the
    run goes on to the cleanup of the temporary directory and returns, and
    the partial file is still there. *)
Lemma failed_merge_leaves_partial_output :
  let task := Sample.task Sample.url "00:00:00" "00:01:09" in
  let w := Sample.merge_fails [task] in
  let r := main Sample.cfg w ∅ in
  mergeToFile w = Failed true
  ∧ status r = Returned
  ∧ last (trace (final r)) = Some (Log JoinError)
  ∧ locate w (output Sample.cfg) = [lit "work"; lit "final.mp4"]
  ∧ locate w (output Sample.cfg) ∈ fs (final r).
Proof.
  split_and!; [done|vm_compute; reflexivity..|].
  decide_closed.
Qed.

(** C6, amended: if the final concatenation fails, the failure is logged,
    the run goes on to the cleanup of the temporary directory and [main]
    returns; the program itself never removes the output file.  The file
    the tool left at the output path (or one that was there before) is
    still there at the end, unless the output path names an entry in the
    tree of the temporary directory and the removal of that tree deletes
    it. *)
Theorem failed_merge_keeps_output (cfg : config) (w : env) (fs0 : files)
  (videoTasks : list jsval) (st : state) (partial : bool) :
  ffmpegFound w = true → ytdlpFound w = true →
  ensureDirs w = true → completed (emptyTemp w) = true →
  read_tasks w = Ok videoTasks →
  loop cfg w 0 videoTasks (checked cfg w fs0) = Next st →
  cutSegmentPaths st ≠ [] →
  mergeToFile w = Failed partial →
  let r := main cfg w fs0 in
  let out := locate w (output cfg) in
  status r = Returned
  ∧ trace (final r)
    = trace st
      ++ [MergeFiles (cutSegmentPaths st) (output cfg) (tempDir cfg);
          Log JoinError]
      ++ (if verbose cfg || completed (removeTemp w) then []
          else [Log CleanupError])
  ∧ (out ∈ fs (final r)
     ↔ (partial = true ∨ out ∈ fs st)
       ∧ (verbose cfg = true
          ∨ ¬ (inside (locate w (tempDir cfg)) out
               ∧ deletes (removeTemp w) out = true))).
Proof.
  intros Hff Hyt Hdirs Hempt Hread Hloop Hne Hm r out.
  subst r. unfold main. rewrite Hff, Hyt, Hdirs, Hempt, Hread, Hloop. simpl.
  rewrite bool_decide_eq_false_2 by done.
  unfold cleanup, join, removed. rewrite Hm. simpl.
  destruct (verbose cfg) eqn:Hv;
    [|destruct (completed (removeTemp w)) eqn:Hrm]; simpl.
  all: split; [done|]; rewrite <- ?app_assoc; simpl; split; [done|].
  all: unfold fs_remove; rewrite ?elem_of_filter.
  all: fold out; destruct partial; set_solver.
Qed.

(** The tree that the cleanup removes is that of the entry the path of
    the temporary directory names.  Here the output is asked for inside
    it, under another spelling: the partial file of the failed
    concatenation goes with the directory. *)
Lemma output_inside_temp_is_removed :
  let task := Sample.task Sample.url "00:00:00" "00:01:09" in
  let w := Sample.merge_fails [task] in
  let r := main Sample.cfg_inside w ∅ in
  status r = Returned
  ∧ last (trace (final r)) = Some (Log JoinError)
  ∧ (locate w (output Sample.cfg_inside) ∉ fs (final r))
  ∧ Sample.cached ∈ fs (final r).
Proof.
  split_and!; [vm_compute; reflexivity..| |]; decide_closed.
Qed.

(** A time field that has no conversion to a string ends the loop at the
    line that announces the cut, after the download. *)
Lemma unprintable_time_ends_the_loop :
  let task :=
    VObject [(lit "url", VString (lit Sample.url));
             (lit "startTime", VObject [(lit "toString", VNumber 1%float)]);
             (lit "endTime", VString (lit "00:00:20"))] in
  let w := Sample.all_fine [task] in
  let r := main Sample.cfg w ∅ in
  read_tasks w = Ok [task]
  ∧ status r = Rejected TypeError
  ∧ List.filter is_processing (trace (final r))
    = [Download (lit Sample.url) (lit ".youtube_cache/FZLadzn5i6Q.mp4")].
Proof. repeat split; vm_compute; reflexivity. Qed.

(** ** The order of the clips *)

(** What one iteration does to the list of clip paths: a completed
    iteration appends the segment path of its request, a skipped one leaves
    the list as it is. *)
Lemma cut_clips cfg w i task videoId st :
  match cut cfg w i task videoId st with
  | Next st' =>
      cutSegmentPaths st'
      = cutSegmentPaths st ++ [segmentOutputPath cfg i videoId]
  | Skip st' | Uncaught _ st' => cutSegmentPaths st' = cutSegmentPaths st
  end.
Proof.
  unfold cut, unguarded, cut_promise.
  repeat case_match; by simplify_eq.
Qed.

Lemma fetch_clips cfg w i u videoId st :
  cutSegmentPaths (state_of (fetch cfg w i u videoId st)) = cutSegmentPaths st.
Proof. unfold fetch. repeat case_match; done. Qed.

Lemma process_task_clips cfg w i task st :
  match process_task cfg w i task st with
  | Next st' =>
      ∃ videoId,
        cutSegmentPaths st'
        = cutSegmentPaths st ++ [segmentOutputPath cfg i videoId]
  | Skip st' | Uncaught _ st' => cutSegmentPaths st' = cutSegmentPaths st
  end.
Proof.
  unfold process_task, unguarded.
  destruct (get_field task (lit "url")) as [url|]; [|done].
  destruct (ToString url); [|done].
  destruct (getYouTubeId url) as [[videoId|]|]; [|by destruct url|done].
  destruct url; try done.
  pose proof (fetch_clips cfg w i s videoId st) as Hf.
  destruct (fetch cfg w i s videoId st) as [st1|st1|e st1]; simpl in Hf;
    [|done|done].
  pose proof (cut_clips cfg w i task videoId st1) as Hc.
  destruct (cut cfg w i task videoId st1); rewrite <- Hf; eauto.
Qed.

Lemma produces_functional cfg w i videoTasks st j (p q : path) :
  produces cfg w i videoTasks st j p →
  produces cfg w i videoTasks st j q → p = q.
Proof.
  intros (t & a & a' & Ht & Ha & Ha' & Hp) (t' & b & b' & Ht' & Hb & Hb' & Hq).
  rewrite Ht in Ht'. injection Ht' as <-.
  rewrite Ha in Hb. injection Hb as <-.
  rewrite Ha' in Hb'. injection Hb' as <-.
  rewrite Hp in Hq. by apply app_inj_tail in Hq as [_ ?].
Qed.

Lemma produces_head cfg w i task rest st (p : path) :
  produces cfg w i (task :: rest) st 0 p
  ↔ ∃ st', process_task cfg w i task st = Next st'
           ∧ cutSegmentPaths st' = cutSegmentPaths st ++ [p].
Proof.
  unfold produces. simpl. rewrite Nat.add_0_r. split.
  - intros (t & a & a' & [= <-] & [= <-] & Ha' & Hp). eauto.
  - intros (st' & H & Hp). by exists task, st, st'.
Qed.

Lemma produces_tail cfg w i task rest st st1 j (p : path) :
  process_task cfg w i task st = Next st1
  ∨ process_task cfg w i task st = Skip st1 →
  produces cfg w i (task :: rest) st (S j) p
  ↔ produces cfg w (S i) rest st1 j p.
Proof.
  intros H. unfold produces. simpl. rewrite Nat.add_succ_r.
  by destruct H as [-> | ->].
Qed.

(** The clips after the loop are those of the requests that produce one,
    by increasing request index. *)
Lemma loop_clips cfg w (videoTasks : list jsval) :
  ∀ i st stf,
    loop cfg w i videoTasks st = Next stf →
    ∃ (js : list nat) (ps : list path),
      cutSegmentPaths stf = cutSegmentPaths st ++ ps
      ∧ StronglySorted lt js
      ∧ Forall2 (produces cfg w i videoTasks st) js ps
      ∧ ∀ j p, produces cfg w i videoTasks st j p → j ∈ js.
Proof.
  induction videoTasks as [|task rest IH]; intros i st stf Hloop.
  { injection Hloop as <-. exists [], []. rewrite app_nil_r.
    split_and!; [done|constructor|constructor|].
    intros j p (t & _ & _ & Ht & _). by rewrite lookup_nil in Ht. }
  simpl in Hloop.
  pose proof (process_task_clips cfg w i task st) as Hc.
  destruct (process_task cfg w i task st) as [st1|st1|e st1] eqn:H1;
    [| |done].
  - destruct Hc as [videoId Hc].
    destruct (IH (S i) st1 stf Hloop) as (js & ps & Hps & Hs & Hf & Hall).
    exists (0%nat :: (S <$> js)), (segmentOutputPath cfg i videoId :: ps).
    split_and!.
    + by rewrite Hps, Hc, <- app_assoc.
    + apply StronglySorted_cons. split.
      * apply Forall_fmap, Forall_true. intros j. simpl. lia.
      * clear -Hs. induction Hs as [|j js _ IHs Hj]; [constructor|].
        rewrite fmap_cons. apply StronglySorted_cons. split; [|done].
        apply Forall_fmap. eapply Forall_impl; [exact Hj|].
        intros k. simpl. lia.
    + constructor.
      * apply produces_head. eauto.
      * apply Forall2_fmap_l. eapply Forall2_impl; [exact Hf|].
        intros j p Hp. simpl. apply (produces_tail _ _ _ _ _ _ st1); eauto.
    + intros [|j] p Hp; [by left|]. right.
      apply list_elem_of_fmap_2, (Hall j p).
      apply (produces_tail _ _ _ _ _ _ st1) in Hp; eauto.
  - destruct (IH (S i) st1 stf Hloop) as (js & ps & Hps & Hs & Hf & Hall).
    exists (S <$> js), ps. split_and!.
    + by rewrite Hps, Hc.
    + clear -Hs. induction Hs as [|j js _ IHs Hj]; [constructor|].
      rewrite fmap_cons. apply StronglySorted_cons. split; [|done].
      apply Forall_fmap. eapply Forall_impl; [exact Hj|].
      intros k. simpl. lia.
    + apply Forall2_fmap_l. eapply Forall2_impl; [exact Hf|].
      intros j p Hp. simpl. apply (produces_tail _ _ _ _ _ _ st1); eauto.
    + intros [|j] p Hp.
      * apply produces_head in Hp as (st' & Hp & _). by rewrite H1 in Hp.
      * apply list_elem_of_fmap_2, (Hall j p).
        apply (produces_tail _ _ _ _ _ _ st1) in Hp; eauto.
Qed.

(** In a sorted list the smaller of two members comes first. *)
Lemma sorted_split (js : list nat) (i j : nat) :
  StronglySorted lt js → i ∈ js → j ∈ js → (i < j)%nat →
  ∃ a b c, js = a ++ i :: b ++ j :: c.
Proof.
  intros Hs Hi Hj Hlt.
  apply list_elem_of_split in Hi as (a & r & ->).
  apply elem_of_app in Hj as [Hj|Hj].
  - assert (Hji : (j < i)%nat); [|lia].
    apply (StronglySorted_app_1_elem_of _ _ _ j i Hs Hj). by left.
  - apply elem_of_cons in Hj as [->|Hj]; [lia|].
    apply list_elem_of_split in Hj as (b & c & ->). by exists a, b, c.
Qed.

Lemma no_merge_elem (l : list event) (inputs : list path) (out tmp : path) :
  List.filter is_merge l = [] → MergeFiles inputs out tmp ∉ l.
Proof.
  intros Hf Hin. apply list_elem_of_In in Hin.
  assert (H : In (MergeFiles inputs out tmp) (List.filter is_merge l))
    by (by apply List.filter_In).
  by rewrite Hf in H.
Qed.

Lemma join_cleanup_trace (cfg : config) (w : env) (st : state) :
  ∃ logs,
    trace (cleanup cfg w (join cfg w st))
    = trace st
      ++ MergeFiles (cutSegmentPaths st) (output cfg) (tempDir cfg) :: logs
    ∧ Forall (fun e => is_merge e = false) logs.
Proof.
  unfold cleanup, join, removed.
  repeat case_match; simpl; rewrite <- ?app_assoc; simpl;
    eexists; (split; [reflexivity|]); repeat constructor.
Qed.

(** C1: whatever the task list, the clips handed to the merge are those of
    the requests that were not skipped, in the order of the requests: they
    are listed by strictly increasing request index, one clip for each
    request that produces one; so when requests i < j both produce clips,
    the clip of i comes before the clip of j, however many requests between
    them were skipped. *)
Theorem merge_in_request_order (cfg : config) (w : env) (fs0 : files)
  (videoTasks : list jsval) (inputs : list path) (out tmp : path) :
  read_tasks w = Ok videoTasks →
  MergeFiles inputs out tmp ∈ trace (final (main cfg w fs0)) →
  let produced := produces cfg w 0 videoTasks (checked cfg w fs0) in
  (∃ js : list nat,
      StronglySorted lt js
      ∧ Forall2 produced js inputs
      ∧ ∀ j p, produced j p → j ∈ js)
  ∧ (∀ i j p q,
       (i < j)%nat → produced i p → produced j q →
       ∃ l1 l2 l3, inputs = l1 ++ p :: l2 ++ q :: l3).
Proof.
  intros Hread Hin produced.
  assert (Hclips : ∃ stf, loop cfg w 0 videoTasks (checked cfg w fs0) = Next stf
                          ∧ cutSegmentPaths stf = inputs).
  { pose proof (loop_no_merge cfg w videoTasks fs0) as Hnm.
    revert Hin. unfold main. rewrite Hread.
    destruct (negb (ffmpegFound w) || negb (ytdlpFound w));
      [intros Hin; by apply no_merge_elem in Hin|].
    destruct (negb (ensureDirs w));
      [intros Hin; by apply no_merge_elem in Hin|].
    destruct (negb (completed (emptyTemp w)));
      [intros Hin; by apply no_merge_elem in Hin|].
    destruct (loop cfg w 0 videoTasks (checked cfg w fs0))
      as [stf|stf|e stf] eqn:Hloop; simpl in Hnm.
    - destruct (bool_decide (cutSegmentPaths stf = [])).
      + intros Hin. exfalso. revert Hin. apply no_merge_elem.
        unfold nothing_to_join.
        repeat case_match; simpl; by rewrite List.filter_app, Hnm.
      + intros Hin. exists stf. split; [done|].
        destruct (join_cleanup_trace cfg w stf) as (logs & Htr & Hlogs).
        cbn [final] in Hin. rewrite Htr in Hin.
        apply elem_of_app in Hin as [Hin|Hin];
          [by apply no_merge_elem in Hin|].
        apply elem_of_cons in Hin as [Hin|Hin]; [by injection Hin|].
        apply no_merge_elem in Hin; [done|].
        by rewrite <- (app_nil_l logs), filter_none.
    - by destruct (loop_not_skip cfg w videoTasks 0 (checked cfg w fs0) stf).
    - intros Hin. by apply no_merge_elem in Hin. }
  destruct Hclips as (stf & Hloop & <-).
  destruct (loop_clips cfg w videoTasks 0 _ _ Hloop)
    as (js & ps & Hps & Hs & Hf & Hall).
  simpl in Hps. subst ps.
  split; [by exists js|].
  intros i j p q Hij Hp Hq.
  destruct (sorted_split js i j Hs (Hall _ _ Hp) (Hall _ _ Hq) Hij)
    as (a & b & c & ->).
  apply Forall2_app_inv_l in Hf as (l1 & r1 & _ & Hf & ->).
  apply Forall2_cons_inv_l in Hf as (p' & r2 & Hp' & Hf & ->).
  apply Forall2_app_inv_l in Hf as (l2 & r3 & _ & Hf & ->).
  apply Forall2_cons_inv_l in Hf as (q' & l3 & Hq' & _ & ->).
  rewrite (produces_functional _ _ _ _ _ _ _ _ Hp Hp').
  rewrite (produces_functional _ _ _ _ _ _ _ _ Hq Hq').
  by exists l1, l2, l3.
Qed.

(** * Concrete runs

    Each theorem above that has hypotheses is applied here to a run of the
    sample data. *)

Ltac by_eval := vm_compute; reflexivity.

Ltac find_event :=
  apply list_elem_of_In; vm_compute;
  repeat (first [left; reflexivity | right]).

(** Requests 1 and 3 of three produce clips; request 2 is skipped. *)
Lemma merge_in_request_order_witness :
  let w := Sample.all_fine Sample.three in
  let produced :=
    produces Sample.cfg w 0 Sample.three (checked Sample.cfg w ∅) in
  ∃ js : list nat,
    StronglySorted lt js
    ∧ Forall2 produced js [Sample.clip1; Sample.clip3]
    ∧ ∀ j p, produced j p → j ∈ js.
Proof.
  assert (Hread : read_tasks (Sample.all_fine Sample.three) = Ok Sample.three)
    by by_eval.
  assert (Hin : MergeFiles [Sample.clip1; Sample.clip3]
                  (lit "final.mp4") (lit ".temp_segments")
                ∈ trace (final (main Sample.cfg
                                  (Sample.all_fine Sample.three) ∅)))
    by find_event.
  exact (proj1 (merge_in_request_order _ _ _ _ _ _ _ Hread Hin)).
Defined.

(** A request that ends before it starts, for a video that is cached: no
    event but the two lines of the rejection. *)
Lemma invalid_range_rejected_before_cut_witness :
  let task := Sample.task Sample.url "00:00:10" "00:00:05" in
  let st := Sample.start {[ Sample.cached ]} in
  let fl := process_task Sample.cfg (Sample.all_fine [task]) 0 task st in
  List.filter is_cut (trace (state_of fl)) = List.filter is_cut (trace st)
  ∧ cutSegmentPaths (state_of fl) = cutSegmentPaths st
  ∧ (∀ st', fl ≠ Next st').
Proof.
  intros task st fl.
  destruct (invalid_range_rejected_before_cut
              Sample.cfg (Sample.all_fine [task]) 0 task st
              (VString (lit "00:00:10")) (VString (lit "00:00:05"))
              10%float 5%float)
    as (H1 & H2 & H3 & _); [by_eval..|].
  exact (conj H1 (conj H2 H3)).
Defined.

(** Two requests for one video, nothing cached, the download works: one
    download. *)
Lemma fetch_by_cache_file_witness :
  let w := Sample.all_fine Sample.twice in
  let st := Sample.start ∅ in
  let p := cachedVideoPath Sample.cfg Sample.videoId in
  List.filter is_download
    (added st (state_of (loop Sample.cfg w 0 Sample.twice st)))
  = [Download (lit Sample.url) p].
Proof.
  intros w st p.
  destruct (fetch_by_cache_file Sample.cfg w 0
              (Sample.task Sample.url "00:00:00" "00:01:09")
              (Sample.task Sample.url_embed "00:02:00" "00:02:30")
              (lit Sample.url) (lit Sample.url_embed)
              Sample.videoId st)
    as (Hd & _); [by_eval..|].
  assert (Hex : pathExists w p st = false) by by_eval.
  fold p in Hd. rewrite Hex in Hd. exact Hd.
Defined.

(** The copy fails and the re-encode succeeds. *)
Lemma cut_copy_then_reencode_witness :
  let task := Sample.task Sample.url "00:00:00" "00:01:09" in
  let src := cachedVideoPath Sample.cfg Sample.videoId in
  let out := Sample.clip1 in
  let startTime := VString (lit "00:00:00") in
  trace (state_of (cut Sample.cfg (Sample.copy_fails [task]) 0 task
                     Sample.videoId (Sample.start {[ Sample.cached ]})))
  = [CutCopy src startTime 69%float out; Log CopyError;
     CutReencode src startTime 69%float out].
Proof.
  intros task src out startTime.
  destruct (cut_copy_then_reencode Sample.cfg (Sample.copy_fails [task]) 0
              task Sample.videoId (Sample.start {[ Sample.cached ]})
              startTime (VString (lit "00:01:09")) 69%float)
    as (Htrace & _); [by_eval|by_eval|by_eval|decide_closed|].
  exact Htrace.
Defined.

(** The concatenation of one clip fails and leaves a partial file. *)
Lemma failed_merge_keeps_output_witness :
  let task := Sample.task Sample.url' "00:00:00" "00:00:52" in
  let w := Sample.merge_fails [task] in
  let r := main Sample.cfg w ∅ in
  status r = Returned ∧ locate w (output Sample.cfg) ∈ fs (final r).
Proof.
  intros task w r.
  pose (fl := loop Sample.cfg w 0 [task] (checked Sample.cfg w ∅)).
  destruct (failed_merge_keeps_output Sample.cfg w ∅ [task] (state_of fl) true)
    as (Hs & _ & Hout);
    [reflexivity|reflexivity|reflexivity|reflexivity|by_eval|by_eval|
     |reflexivity|].
  { vm_compute. discriminate. }
  split; [exact Hs|].
  apply Hout. split; [by left|]. right. intros [Hin _]. revert Hin.
  apply (bool_decide_unpack (¬ _)). vm_compute. exact I.
Defined.

(** No request resolves and the removal of the temporary directory is
    refused: [main] rejects. *)
Lemma empty_result_removal_unguarded_witness :
  let r := main Sample.cfg (Sample.removal_fails Sample.unresolved) ∅ in
  List.filter is_merge (trace (final r)) = []
  ∧ status r = Rejected IOError.
Proof.
  intros r.
  pose (fl := loop Sample.cfg (Sample.removal_fails Sample.unresolved) 0
                Sample.unresolved
                (checked Sample.cfg (Sample.removal_fails Sample.unresolved) ∅)).
  destruct (empty_result_removal_unguarded Sample.cfg
              (Sample.removal_fails Sample.unresolved) ∅ Sample.unresolved
              (state_of fl))
    as (Hm & _ & _ & Hs);
    [reflexivity|reflexivity|reflexivity|reflexivity|by_eval|by_eval|by_eval|].
  exact (conj Hm Hs).
Defined.

(** The second entry lacks [endTime]: the batch is rejected. *)
Lemma missing_field_rejects_batch_witness :
  let r := main Sample.cfg (Sample.all_fine Sample.malformed) ∅ in
  status r = Exited 1 ∧ List.filter is_processing (trace (final r)) = [].
Proof.
  intros r.
  destruct (missing_field_rejects_batch Sample.cfg
              (Sample.all_fine Sample.malformed) ∅ Sample.malformed
              (VObject [(lit "url", VString (lit Sample.url'));
                        (lit "startTime", VString (lit "00:00:10"))])
              (lit "endTime"))
    as (_ & Hs & Hp & _).
  - reflexivity.
  - apply elem_of_cons. right. apply elem_of_cons. by left.
  - apply elem_of_cons. right. apply elem_of_cons. right.
    apply elem_of_cons. by left.
  - intros (props & v & Heq & Hl). injection Heq as <-.
    vm_compute in Hl. discriminate.
  - exact (conj Hs Hp).
Defined.

(** * Further properties *)

(** ** The pattern, forwards *)

Section StarSearch.

Variable p : code_unit → bool.
Variable k : mstate → option captures.

Lemma star_none (s : jsstring) :
  ∀ i cs,
    (∀ a b, s = a ++ b → Forall (fun c => p c = true) a →
            k (MState (i + length a) b cs) = None) →
    star p k i s cs = None.
Proof.
  induction s as [|c s IH]; intros i cs Hk; simpl.
  - rewrite <- (Nat.add_0_r i). by apply (Hk [] []).
  - assert (H0 : k (MState i (c :: s) cs) = None).
    { rewrite <- (Nat.add_0_r i). by apply (Hk [] (c :: s)). }
    destruct (p c) eqn:Hc; [|done].
    rewrite IH; [done|]. intros a b -> Ha.
    specialize (Hk (c :: a) b). simpl in Hk. rewrite Nat.add_succ_r in Hk.
    apply Hk; [done|by constructor].
Qed.

Lemma star_pick (s : jsstring) :
  ∀ i cs a b r,
    s = a ++ b →
    Forall (fun c => p c = true) a →
    k (MState (i + length a) b cs) = Some r →
    (∀ a' b', s = a' ++ b' → Forall (fun c => p c = true) a' →
              (length a < length a')%nat →
              k (MState (i + length a') b' cs) = None) →
    star p k i s cs = Some r.
Proof.
  induction s as [|c s IH]; intros i cs a b r Hs Ha Hk Hlater.
  - symmetry in Hs. apply app_eq_nil in Hs as [-> ->]. simpl in *.
    by rewrite Nat.add_0_r in Hk.
  - destruct a as [|c' a]; simpl in Hs.
    + subst b. simpl in Hk. rewrite Nat.add_0_r in Hk. simpl.
      destruct (p c) eqn:Hc; [|done].
      rewrite star_none; [done|]. intros a' b' -> Ha'.
      specialize (Hlater (c :: a') b'). simpl in Hlater.
      rewrite Nat.add_succ_r in Hlater. apply Hlater; [done| |lia].
      by constructor.
    + injection Hs as <- ->. apply Forall_cons in Ha as [Hc Ha]. simpl.
      rewrite Hc. simpl in Hk. rewrite Nat.add_succ_r in Hk.
      erewrite IH; [done|reflexivity|done|exact Hk|].
      intros a' b' Hs' Ha' Hlen.
      specialize (Hlater (c :: a') b'). simpl in Hlater.
      rewrite Nat.add_succ_r in Hlater. apply Hlater; [by rewrite Hs'| |lia].
      by constructor.
Qed.

End StarSearch.

(** The longest run of a class at the head of a string is unique. *)
Lemma longest_run_unique (p : code_unit → bool) (a b a' b' : jsstring) :
  a ++ b = a' ++ b' →
  Forall (fun c => p c = true) a → Forall (fun c => p c = true) a' →
  match b with [] => True | c :: _ => p c = false end →
  match b' with [] => True | c :: _ => p c = false end →
  a = a' ∧ b = b'.
Proof.
  revert a'. induction a as [|c a IH]; intros a' Heq Ha Ha' Hb Hb'.
  - destruct a' as [|c' a']; [done|]. simpl in Heq. subst b.
    apply Forall_cons in Ha' as [Hc' _]. congruence.
  - destruct a' as [|c' a']; simpl in Heq.
    + subst b'. apply Forall_cons in Ha as [Hc _]. congruence.
    + injection Heq as <- Heq. apply Forall_cons in Ha as [_ Ha].
      apply Forall_cons in Ha' as [_ Ha'].
      destruct (IH a' Heq Ha Ha' Hb Hb') as [-> ->]. done.
Qed.

(** At one position at most one alternative of group 1 matches, so the
    group continues with what follows the marker. *)
Ltac eval_lits :=
  repeat match goal with
         | |- context [lit ?s] =>
             let l := eval vm_compute in (lit s) in change (lit s) with l
         end.

Lemma markers_match (k : mstate → option captures) (mk t : jsstring)
  (i : nat) (cs : captures) :
  marker mk →
  run markers k (MState i (mk ++ t) cs)
  = k (MState (length mk + i) t cs).
Proof.
  unfold marker.
  intros [(c & Hc & ->)|[->|[(c & Hc & ->)|[->|[->| ->]]]]];
    unfold markers, chars; eval_lits; cbn; rewrite ?Hc; by destruct (k _).
Qed.

(** The converse of [regExp_capture]: the pattern matches at the last
    marker of the URL and captures the longest token after it. *)
Lemma regExp_match (pre mk tok tl : jsstring) :
  Forall (fun c => dot c = true) pre →
  marker mk →
  Forall (fun c => not_separator c = true) tok →
  match tl with [] => True | c :: _ => not_separator c = false end →
  (∀ pre' mk' s',
     pre ++ mk ++ tok ++ tl = pre' ++ mk' ++ s' →
     marker mk' → Forall (fun c => dot c = true) pre' →
     (length pre' ≤ length pre)%nat) →
  exec regExp (pre ++ mk ++ tok ++ tl)
  = Some [(2%nat, tok); (1%nat, mk)].
Proof.
  intros Hpre Hmk Htok Htl Hlast.
  assert (Hrun : run regExp (fun m => Some (caps m))
                   (MState 0 (pre ++ mk ++ tok ++ tl) [])
                 = Some [(2%nat, tok); (1%nat, mk)]).
  { unfold regExp. cbn [run pos rest caps Nat.eqb].
    apply (star_pick _ _ _ _ _ pre (mk ++ tok ++ tl)); [done|done| |].
    - cbn [run pos rest caps]. rewrite markers_match by done.
      cbn [pos rest caps].
      lazymatch goal with
      | |- star ?p ?k ?j ?s ?cs = _ =>
          assert (Hk : ∀ m', is_Some (k m'))
            by (intros m'; rewrite star_caps; eauto);
          destruct (star_greedy p k s Hk j cs)
            as (a & b & Heq & Ha & Hb & ->)
      end.
      destruct (longest_run_unique _ _ _ _ _ Heq Htok Ha Htl Hb) as [<- <-].
      cbn [pos rest caps]. rewrite star_caps.
      replace (length mk + (0 + length pre) + length tok
               - (length mk + (0 + length pre)))%nat
        with (length tok) by lia.
      replace (length mk + (0 + length pre) - (0 + length pre))%nat
        with (length mk) by lia.
      by rewrite !take_app_length.
    - intros a' b' Heq Ha' Hlen.
      lazymatch goal with |- ?x = None => destruct x eqn:E; [|done] end.
      exfalso. cbn [run] in E.
      apply markers_inv in E as (mk' & t' & Hr & Hmk' & _).
      cbn [rest] in Hr. subst b'.
      specialize (Hlast a' mk' t' Heq Hmk' Ha'). lia. }
  unfold exec. destruct (pre ++ mk ++ tok ++ tl); cbn [exec_from];
    by rewrite Hrun.
Qed.

(** X1: the identifier is read at the last marker of the URL.  When
    the text before a marker has no line terminator, the token after the
    marker runs up to the first [#], [&] or [?] (or the end), and no marker
    starts further to the right, [getYouTubeId] returns that token if it
    has exactly 11 code units and [null] otherwise. *)
Theorem getYouTubeId_last_marker (pre mk tok tl : jsstring) :
  Forall (fun c => dot c = true) pre →
  marker mk →
  Forall (fun c => not_separator c = true) tok →
  match tl with [] => True | c :: _ => not_separator c = false end →
  (∀ pre' mk' s',
     pre ++ mk ++ tok ++ tl = pre' ++ mk' ++ s' →
     marker mk' → Forall (fun c => dot c = true) pre' →
     (length pre' ≤ length pre)%nat) →
  getYouTubeId (VString (pre ++ mk ++ tok ++ tl))
  = Ok (if (length tok =? 11)%nat then Some tok else None).
Proof.
  intros Hpre Hmk Htok Htl Hlast. unfold getYouTubeId.
  rewrite (regExp_match pre mk tok tl) by done. cbn [group Nat.eqb].
  by destruct (length tok =? 11)%nat.
Qed.

(** X3: a URL in which no marker occurs has no identifier. *)
Theorem getYouTubeId_no_marker (url : jsstring) :
  (∀ pre mk rest, url = pre ++ mk ++ rest → ¬ marker mk) →
  getYouTubeId (VString url) = Ok None.
Proof.
  intros Hno. unfold getYouTubeId.
  destruct (exec regExp url) as [m|] eqn:Hm; [|done].
  destruct (regExp_capture url m Hm) as (pre & tl & Hurl & _ & Hmk & _).
  by destruct (Hno pre (group 1 m) (group 2 m ++ tl) Hurl).
Qed.

Lemma id_char_plain (c : code_unit) :
  id_char c = true → not_separator c = true ∧ ends_marker c = false.
Proof.
  unfold id_char, word_char, not_separator, ends_marker.
  rewrite !orb_true_iff, !andb_true_iff, !N.leb_le, !N.eqb_eq.
  intros H.
  destruct (N.eqb_spec c 35), (N.eqb_spec c 38), (N.eqb_spec c 63),
    (N.eqb_spec c 47), (N.eqb_spec c 61); simpl; split; try done; lia.
Qed.

Lemma marker_at_marker (mk t : jsstring) :
  marker mk → marker_at (mk ++ t) = true.
Proof.
  intros Hmk. unfold marker_at. rewrite markers_match by done.
  by apply bool_decide_eq_true_2.
Qed.

Lemma marker_last (mk : jsstring) :
  marker mk → ∃ m0 e, mk = m0 ++ [e] ∧ ends_marker e = true.
Proof.
  unfold marker.
  intros [(c & Hc & ->)|[->|[(c & Hc & ->)|[->|[->| ->]]]]].
  - by exists (lit "youtu" ++ c :: lit "be"), 47%N.
  - by exists (lit "v"), 47%N.
  - by exists (lit "u/" ++ [c]), 47%N.
  - by exists (lit "embed"), 47%N.
  - by exists (lit "watch?v"), 61%N.
  - by exists (lit "&v"), 61%N.
Qed.

(** A marker of [p ++ s] lies inside [p] when no character of [s] can end
    a marker. *)
Lemma last_marker_in_prefix (p s pre' mk' s' : jsstring) (n : nat) :
  Forall (fun c => ends_marker c = false) s →
  last_marker_at p n = true →
  p ++ s = pre' ++ mk' ++ s' →
  marker mk' →
  (length pre' ≤ n)%nat.
Proof.
  intros Hs Hcheck Heq Hmk.
  destruct (marker_last mk' Hmk) as (m0 & e & -> & He).
  assert (Hlen : (length (pre' ++ m0) < length p)%nat).
  { destruct (decide (length (pre' ++ m0) < length p)%nat) as [|Hge];
      [done|exfalso].
    assert (Hl : (p ++ s) !! length (pre' ++ m0) = Some e).
    { rewrite Heq, <- !app_assoc, (app_assoc pre' m0). simpl.
      apply list_lookup_middle. done. }
    rewrite lookup_app_r in Hl by lia.
    apply list_elem_of_lookup_2 in Hl.
    rewrite Forall_forall in Hs. specialize (Hs e Hl). congruence. }
  assert (Hp : take (length (pre' ++ m0 ++ [e])) p = pre' ++ m0 ++ [e]).
  { rewrite <- (take_app_le p s) by (rewrite !length_app in *; simpl; lia).
    rewrite Heq, (app_assoc pre' (m0 ++ [e]) s'). apply take_app_length. }
  unfold last_marker_at in Hcheck. rewrite forallb_forall in Hcheck.
  specialize (Hcheck (length pre')).
  rewrite length_app in Hlen.
  assert (Hin : In (length pre') (seq 0 (S (length p))))
    by (apply in_seq; lia).
  apply Hcheck in Hin. apply orb_true_iff in Hin as [Hin|Hin].
  - rewrite <- (take_drop (length (pre' ++ m0 ++ [e])) p), Hp in Hin.
    rewrite <- app_assoc, drop_app_length in Hin.
    by rewrite marker_at_marker in Hin.
  - by apply Nat.leb_le in Hin.
Qed.

Lemma getYouTubeId_shape (pre mk id tl : jsstring) :
  Forall (fun c => dot c = true) pre →
  marker mk →
  last_marker_at (pre ++ mk) (length pre) = true →
  length id = 11%nat →
  Forall (fun c => id_char c = true) id →
  match tl with [] => True | c :: _ => not_separator c = false end →
  Forall (fun c => ends_marker c = false) tl →
  getYouTubeId (VString ((pre ++ mk) ++ id ++ tl)) = Ok (Some id).
Proof.
  intros Hpre Hmk Hcheck Hlen Hid Htl Hfree.
  rewrite <- app_assoc.
  rewrite getYouTubeId_last_marker; try done.
  - by rewrite Hlen.
  - eapply Forall_impl; [exact Hid|]. intros c Hc. by apply id_char_plain.
  - intros pre' mk' s' Heq Hmk' _. rewrite app_assoc in Heq.
    eapply (last_marker_in_prefix (pre ++ mk) (id ++ tl)); eauto.
    apply Forall_app. split; [|done].
    eapply Forall_impl; [exact Hid|]. intros c Hc. by apply id_char_plain.
Qed.

(** X2: the three usual shapes of a link.  For an identifier of 11
    letters, digits, [_] or [-], followed by nothing or by a query or
    fragment in which no marker can end, the watch, short and embed links
    all give that identifier. *)
Theorem getYouTubeId_known_shapes (id tl : jsstring) :
  length id = 11%nat →
  Forall (fun c => id_char c = true) id →
  match tl with [] => True | c :: _ => not_separator c = false end →
  Forall (fun c => ends_marker c = false) tl →
  getYouTubeId (VString (lit "https://www.youtube.com/watch?v=" ++ id ++ tl))
  = Ok (Some id)
  ∧ getYouTubeId (VString (lit "https://youtu.be/" ++ id ++ tl))
    = Ok (Some id)
  ∧ getYouTubeId (VString (lit "https://www.youtube.com/embed/" ++ id ++ tl))
    = Ok (Some id).
Proof.
  intros Hlen Hid Htl Hfree. split_and!.
  - change (lit "https://www.youtube.com/watch?v=")
      with (lit "https://www.youtube.com/" ++ lit "watch?v=").
    apply getYouTubeId_shape;
      [by apply (bool_decide_unpack _); vm_compute
      |unfold marker; tauto|vm_compute; reflexivity|done..].
  - change (lit "https://youtu.be/") with (lit "https://" ++ lit "youtu.be/").
    apply getYouTubeId_shape;
      [by apply (bool_decide_unpack _); vm_compute
      |left; by exists 46%N|vm_compute; reflexivity|done..].
  - change (lit "https://www.youtube.com/embed/")
      with (lit "https://www.youtube.com/" ++ lit "embed/").
    apply getYouTubeId_shape;
      [by apply (bool_decide_unpack _); vm_compute
      |unfold marker; tauto|vm_compute; reflexivity|done..].
Qed.

(** ** [timeToSeconds] and [calculateDuration] *)

(** X4: [timeToSeconds] returns a number on every string with at most
    two colons and throws its format error on every string with three or
    more. *)
Theorem timeToSeconds_throws_iff_colons (s : jsstring) :
  let colons := length (filter (fun c => c = colon) s) in
  ((colons < 3)%nat → ∃ v, timeToSeconds (VString s) = Ok v)
  ∧ ((3 ≤ colons)%nat →
     timeToSeconds (VString s) = Throw (InvalidTimeFormat s)).
Proof.
  intros colons.
  pose proof (split_on_length colon s) as Hlen. fold colons in Hlen.
  unfold timeToSeconds. change 58%N with colon.
  destruct (split_on colon s) as [|a [|b [|c [|d l]]]]; simpl in Hlen;
    (split; intros H; [|try lia]); try lia; eauto.
Qed.

Lemma is_nan_Prim2SF (x : float) : is_nan x = true → Prim2SF x = S754_nan.
Proof. intros H. unfold Prim2SF. by rewrite H. Qed.

(** X5: a time that does not parse passes the range check.  When either
    time is [NaN], the comparison [endSeconds <= startSeconds] is false, so
    nothing is thrown and the duration is [NaN]. *)
Theorem calculateDuration_nan (startTime endTime : jsval) (s e : number) :
  timeToSeconds startTime = Ok s →
  timeToSeconds endTime = Ok e →
  is_nan s = true ∨ is_nan e = true →
  calculateDuration startTime endTime = Ok nan.
Proof.
  intros Hs He Hnan.
  rewrite (calculateDuration_range _ _ _ _ Hs He).
  assert (Hle : (e <=? s)%float = false).
  { rewrite leb_spec. unfold SFleb.
    destruct Hnan as [H|H]; apply is_nan_Prim2SF in H; rewrite H.
    - by destruct (Prim2SF e) as [| | |[] ? ?].
    - done. }
  rewrite Hle. f_equal.
  rewrite <- (SF2Prim_Prim2SF (e - s)), sub_spec.
  destruct Hnan as [H|H]; apply is_nan_Prim2SF in H; rewrite H.
  - by destruct (Prim2SF e) as [[]|[]| |[] ? ?].
  - done.
Qed.

(** ** The check of the input, both ways *)

Lemma incomplete_false_iff (task : jsval) :
  incomplete task = Ok false ↔ well_formed task.
Proof.
  unfold well_formed, required_fields, incomplete. split.
  - destruct task as [| | | | | |props]; simpl; try done.
    destruct (lookup_prop (lit "url") props) as [u|] eqn:Hu; simpl; [|done].
    destruct (truthy u) eqn:Tu; simpl; [|done].
    destruct (lookup_prop (lit "startTime") props) as [a|] eqn:Ha; simpl;
      [|done].
    destruct (truthy a) eqn:Ta; simpl; [|done].
    destruct (lookup_prop (lit "endTime") props) as [b|] eqn:Hb; simpl;
      [|done].
    destruct (truthy b) eqn:Tb; simpl; [|done].
    intros _. exists props. split; [done|]. repeat constructor; eauto.
  - intros (props & -> & Hall). simpl.
    apply Forall_cons in Hall as [(u & -> & Tu) Hall].
    apply Forall_cons in Hall as [(a & -> & Ta) Hall].
    apply Forall_cons in Hall as [(b & -> & Tb) _].
    simpl. rewrite Tu. simpl. rewrite Ta. simpl. by rewrite Tb.
Qed.

Lemma some_false_iff (f : jsval → result bool) (l : list jsval) :
  some f l = Ok false ↔ Forall (fun x => f x = Ok false) l.
Proof.
  split; [apply some_false|].
  induction 1 as [|x l Hx _ IH]; simpl; [done|]. by rewrite Hx.
Qed.

(** X6: step 3 accepts the input exactly when it is an array whose
    entries are objects with truthy [url], [startTime] and [endTime]; the
    list it passes on is the parsed array, unchanged. *)
Theorem read_tasks_accepts_iff (w : env) (videoTasks : list jsval) :
  read_tasks w = Ok videoTasks
  ↔ inputFile w = Some (VArray videoTasks) ∧ Forall well_formed videoTasks.
Proof.
  unfold read_tasks. split.
  - destruct (inputFile w) as [[| | | | |l|]|]; try done.
    destruct (some incomplete l) as [[]|] eqn:Hs; simpl; try done.
    intros [= <-]. split; [done|].
    apply some_false_iff in Hs. eapply Forall_impl; [exact Hs|].
    intros task. apply incomplete_false_iff.
  - intros [-> Hall].
    assert (Hs : some incomplete videoTasks = Ok false).
    { apply some_false_iff. eapply Forall_impl; [exact Hall|].
      intros task. apply incomplete_false_iff. }
    by rewrite Hs.
Qed.


(** ** Exceptions in the loop *)

Lemma loop_app cfg w (l1 l2 : list jsval) :
  ∀ i st,
    loop cfg w i (l1 ++ l2) st
    = match loop cfg w i l1 st with
      | Next st1 | Skip st1 => loop cfg w (i + length l1) l2 st1
      | Uncaught e st1 => Uncaught e st1
      end.
Proof.
  induction l1 as [|t l1 IH]; intros i st; simpl.
  - by rewrite Nat.add_0_r.
  - destruct (process_task cfg w i t st); try done;
      rewrite IH, Nat.add_succ_r; done.
Qed.

Lemma cut_promise_not_uncaught cfg w i a b videoId st :
  ∀ e st', cut_promise cfg w i a b videoId st ≠ Uncaught e st'.
Proof.
  intros e st'. rewrite cut_promise_unfold. repeat case_match; done.
Qed.

Lemma fetch_not_uncaught cfg w i u videoId st :
  ∀ e st', fetch cfg w i u videoId st ≠ Uncaught e st'.
Proof. intros e st'. unfold fetch. repeat case_match; done. Qed.

Lemma ToString_unit (v : jsval) :
  ToString v = Ok () ∨ ToString v = Throw TypeError.
Proof.
  destruct (ToString v) as [[]|e] eqn:H; [by left|right].
  by apply ToString_throws in H as [-> _].
Qed.

(** X7: what ends the loop inside one iteration: an entry that is [null], a
    url that is not a string, or, once the video is there, a time field
    that has no conversion to a string.  The exception is a [TypeError];
    no tool failure ends the loop. *)
Theorem process_task_uncaught_iff (cfg : config) (w : env) (i : nat)
  (task : jsval) (st : state) (e : exn) (st' : state) :
  process_task cfg w i task st = Uncaught e st'
  ↔ e = TypeError
    ∧ ((get_field task (lit "url") = Throw TypeError ∧ st' = st)
       ∨ (∃ url, get_field task (lit "url") = Ok url
                 ∧ (∀ u, url ≠ VString u) ∧ st' = st)
       ∨ (∃ u videoId a b,
            get_field task (lit "url") = Ok (VString u)
            ∧ getYouTubeId (VString u) = Ok (Some videoId)
            ∧ fetch cfg w i u videoId st = Next st'
            ∧ get_field task (lit "startTime") = Ok a
            ∧ get_field task (lit "endTime") = Ok b
            ∧ (ToString a = Throw TypeError
               ∨ ToString b = Throw TypeError))).
Proof.
  split.
  - unfold process_task, unguarded.
    destruct (get_field task (lit "url")) as [url|err] eqn:Hurl.
    2: { intros [= <- <-].
         destruct task; simplify_eq/=; (split; [done|by left]). }
    destruct (get_field_object _ _ (lit "startTime") _ Hurl) as [a Ha].
    destruct (get_field_object _ _ (lit "endTime") _ Hurl) as [b Hb].
    destruct (ToString url) eqn:Hstr.
    2: { apply ToString_throws in Hstr as [-> Hid]. intros [= <- <-].
         split; [done|]. right. left. exists url. split_and!; try done.
         intros u ->. unfold getYouTubeId in Hid. by repeat case_match. }
    destruct (getYouTubeId url) as [[videoId|]|err] eqn:Hid.
    + destruct url as [| | | |u| |]; try done.
      pose proof (fetch_not_uncaught cfg w i u videoId st) as Hnf.
      destruct (fetch cfg w i u videoId st) as [st1|st1|e1 st1] eqn:Hf;
        [|done|by destruct (Hnf e1 st1)].
      unfold cut, unguarded. rewrite Ha, Hb.
      pose proof (cut_promise_not_uncaught cfg w i a b videoId st1) as Hnc.
      destruct (ToString_unit a) as [Hta|Hta]; rewrite Hta;
        [destruct (ToString_unit b) as [Htb|Htb]; rewrite Htb|].
      * intros H. by apply Hnc in H.
      * intros [= <- <-]. split; [done|]. right. right.
        exists u, videoId, a, b. split_and!; auto.
      * intros [= <- <-]. split; [done|]. right. right.
        exists u, videoId, a, b. split_and!; auto.
    + by destruct url.
    + intros [= <- <-].
      assert (Hns : ∀ u, url ≠ VString u).
      { intros u ->. unfold getYouTubeId in Hid. by repeat case_match. }
      split; [unfold getYouTubeId in Hid; repeat case_match; by simplify_eq|].
      right. left. by exists url.
  - intros [-> [[Hu ->]|[(url & Hu & Hns & ->)|
                         (u & videoId & a & b & Hu & Hid & Hf & Ha & Hb
                          & Hts)]]];
      unfold process_task, unguarded; rewrite Hu.
    + done.
    + destruct (ToString_unit url) as [Hs|Hs]; rewrite Hs; [|done].
      destruct url; try done. by destruct (Hns s).
    + cbn [ToString]. rewrite Hid, Hf. unfold cut, unguarded.
      rewrite Ha, Hb.
      destruct (ToString_unit a) as [Hta|Hta]; rewrite Hta; [|done].
      destruct Hts as [Hts|Hts]; [congruence|]. by rewrite Hts.
Qed.

(** X8: when every entry has a string for its url and time fields that convert
    to strings, the loop runs to its end, whatever the tools answer. *)
Theorem loop_completes (cfg : config) (w : env) (videoTasks : list jsval) :
  Forall safe videoTasks →
  ∀ i st, ∃ st', loop cfg w i videoTasks st = Next st'.
Proof.
  induction 1 as [|task rest (u & a & b & Hu & Ha & Hb & Hta & Htb) _ IH];
    intros i st; simpl; [by eauto|].
  destruct (process_task cfg w i task st) as [st1|st1|e st1] eqn:Hp;
    [apply IH|apply IH|exfalso].
  apply process_task_uncaught_iff in Hp
    as [_ [[? _]|[(? & ? & Hns & _)|
                  (? & ? & ? & ? & _ & _ & _ & ? & ? & [?|?])]]];
    simplify_eq; congruence.
Qed.

(** X9: the check of step 3 looks at truthiness only.  An entry whose url is
    not a string passes it, and [main] is rejected with a [TypeError] when
    the loop reaches that entry: the requests before it have been
    processed, those after it are never started, and neither the merge nor
    the cleanup runs. *)
Theorem non_string_url_rejects_main (cfg : config) (w : env) (fs0 : files)
  (before after : list jsval) (task url : jsval) :
  ffmpegFound w = true → ytdlpFound w = true →
  ensureDirs w = true → completed (emptyTemp w) = true →
  read_tasks w = Ok (before ++ task :: after) →
  Forall safe before →
  get_field task (lit "url") = Ok url →
  (∀ u, url ≠ VString u) →
  main cfg w fs0
  = Report (Rejected TypeError)
           (state_of (loop cfg w 0 before (checked cfg w fs0))).
Proof.
  intros Hff Hyt Hdirs Hempt Hread Hbefore Hu Hns.
  unfold main. rewrite Hff, Hyt, Hdirs, Hempt, Hread. simpl.
  rewrite loop_app.
  destruct (loop_completes cfg w before Hbefore 0%nat (checked cfg w fs0))
    as [st1 ->].
  cbn [state_of loop].
  assert (Hp : process_task cfg w (0 + length before) task st1
               = Uncaught TypeError st1).
  { apply process_task_uncaught_iff. split; [done|]. right. left.
    by exists url. }
  by rewrite Hp.
Qed.

(** X10: a time field that has no conversion to a string passes the check of
    step 3 as well.  The loop ends at the line that announces the cut of
    that entry: its video has been fetched, no ffmpeg command is started
    for it, and [main] is rejected with a [TypeError]. *)
Theorem unprintable_time_rejects_main (cfg : config) (w : env) (fs0 : files)
  (before after : list jsval) (task a b : jsval) (u videoId : jsstring)
  (st1 st2 : state) :
  ffmpegFound w = true → ytdlpFound w = true →
  ensureDirs w = true → completed (emptyTemp w) = true →
  read_tasks w = Ok (before ++ task :: after) →
  loop cfg w 0 before (checked cfg w fs0) = Next st1 →
  get_field task (lit "url") = Ok (VString u) →
  getYouTubeId (VString u) = Ok (Some videoId) →
  fetch cfg w (length before) u videoId st1 = Next st2 →
  get_field task (lit "startTime") = Ok a →
  get_field task (lit "endTime") = Ok b →
  ToString a = Throw TypeError ∨ ToString b = Throw TypeError →
  main cfg w fs0 = Report (Rejected TypeError) st2
  ∧ List.filter is_cut (trace st2) = List.filter is_cut (trace st1).
Proof.
  intros Hff Hyt Hdirs Hempt Hread Hloop Hu Hid Hf Ha Hb Hts.
  split.
  - unfold main. rewrite Hff, Hyt, Hdirs, Hempt, Hread. simpl.
    rewrite loop_app, Hloop. cbn [loop].
    assert (Hp : process_task cfg w (0 + length before) task st1
                 = Uncaught TypeError st2).
    { apply process_task_uncaught_iff. split; [done|]. right. right.
      exists u, videoId, a, b. by split_and!. }
    by rewrite Hp.
  - destruct (fetch_trace cfg w (length before) u videoId st1)
      as (evs & Ht & F).
    rewrite Hf in Ht. simpl in Ht. rewrite Ht.
    apply filter_none. apply (Forall_impl _ _ _ F). by intros ? [? _].
Qed.

(** ** Files *)

Lemma fs_remove_keeps (r : removal) (dir l : location) (fs0 : files) :
  l ∈ fs0 → ¬ inside dir l → l ∈ fs_remove r dir fs0.
Proof.
  intros Hl Hout. unfold fs_remove. apply elem_of_filter.
  split; [|done]. by intros [? _].
Qed.

Lemma fs_emptyDir_keeps (r : removal) (dir l : location) (fs0 : files) :
  l ∈ fs0 → ¬ inside dir l → l ∈ fs_emptyDir r dir fs0.
Proof.
  intros Hl Hout. unfold fs_emptyDir. apply elem_of_filter.
  split; [|done]. by intros [? _].
Qed.

Lemma fs_remove_clears (dir l : location) (fs0 : files) :
  l ∈ fs_remove Removed dir fs0 → ¬ inside dir l.
Proof.
  unfold fs_remove. rewrite elem_of_filter. intros [Hn _] Hin.
  by apply Hn.
Qed.

Lemma join_cleanup_fs (cfg : config) (w : env) (st : state) (l : location) :
  l ∈ fs st → ¬ inside (locate w (tempDir cfg)) l →
  l ∈ fs (cleanup cfg w (join cfg w st)).
Proof.
  intros Hl Hout. unfold cleanup, join, removed.
  repeat case_match; simpl; try apply fs_remove_keeps; try done;
    repeat (destruct (writes _)); set_solver.
Qed.

(** X12: [main] never deletes a file outside the temporary directory. *)
Theorem main_keeps_files_outside_temp (cfg : config) (w : env) (fs0 : files)
  (l : location) :
  l ∈ fs0 → ¬ inside (locate w (tempDir cfg)) l →
  l ∈ fs (final (main cfg w fs0)).
Proof.
  intros Hl Hout.
  assert (Hc : l ∈ fs (checked cfg w fs0)) by by apply fs_emptyDir_keeps.
  unfold main.
  destruct (negb (ffmpegFound w) || negb (ytdlpFound w)); [done|].
  destruct (negb (ensureDirs w)); [done|].
  destruct (negb (completed (emptyTemp w))); [done|].
  destruct (read_tasks w) as [videoTasks|]; [|done].
  pose proof (loop_fs cfg w videoTasks l 0 _ Hc) as Hloop.
  destruct (loop cfg w 0 videoTasks (checked cfg w fs0)) as [st|st|e st];
    simpl in Hloop; [| |done].
  all: destruct (bool_decide (cutSegmentPaths st = []));
    [|by apply join_cleanup_fs].
  all: unfold nothing_to_join, removed;
    repeat case_match; simpl; try done; by apply fs_remove_keeps.
Qed.

(** X13: after a run that ends normally, without the verbose flag and with a
    removal that works, no file is left in the tree of the temporary
    directory. *)
Theorem main_clears_temp (cfg : config) (w : env) (fs0 : files)
  (l : location) :
  verbose cfg = false → removeTemp w = Removed →
  status (main cfg w fs0) = Returned ∨ status (main cfg w fs0) = Exited 0 →
  l ∈ fs (final (main cfg w fs0)) → ¬ inside (locate w (tempDir cfg)) l.
Proof.
  intros Hv Hrm. unfold main, cleanup, nothing_to_join, removed.
  rewrite Hv, Hrm.
  repeat case_match; simpl; intros [?|?]; try done;
    intros Hl; by apply fs_remove_clears in Hl.
Qed.

(** Every clip in the list exists: a path is pushed only after the
    command that writes it has succeeded, and the loop deletes nothing. *)
Lemma succeeded_writes (o : outcome) : succeeded o = true → writes o = true.
Proof. by destruct o. Qed.

Lemma cut_promise_clips_exist cfg w i a b videoId st :
  Forall (fun p => locate w p ∈ fs st) (cutSegmentPaths st) →
  let st' := state_of (cut_promise cfg w i a b videoId st) in
  Forall (fun p => locate w p ∈ fs st') (cutSegmentPaths st').
Proof.
  intros Hall st'. subst st'. rewrite Forall_forall in Hall.
  apply Forall_forall. intros p. unfold cut_promise.
  repeat case_match; simpl;
    repeat match goal with
           | H : succeeded _ = true |- _ =>
               apply succeeded_writes in H; rewrite H
           end;
    repeat (destruct (writes _));
    rewrite ?elem_of_app, ?list_elem_of_singleton;
    intros Hp; destruct_or?; subst; try apply Hall in Hp; set_solver.
Qed.

Lemma cut_clips_exist cfg w i task videoId st :
  Forall (fun p => locate w p ∈ fs st) (cutSegmentPaths st) →
  let st' := state_of (cut cfg w i task videoId st) in
  Forall (fun p => locate w p ∈ fs st') (cutSegmentPaths st').
Proof.
  intros Hall st'. subst st'. unfold cut, unguarded.
  repeat case_match; try done. by apply cut_promise_clips_exist.
Qed.

Lemma process_task_clips_exist cfg w i task st :
  Forall (fun p => locate w p ∈ fs st) (cutSegmentPaths st) →
  let st' := state_of (process_task cfg w i task st) in
  Forall (fun p => locate w p ∈ fs st') (cutSegmentPaths st').
Proof.
  intros Hall st'. subst st'. unfold process_task, unguarded.
  destruct (get_field task (lit "url")) as [url|]; [|done].
  destruct (ToString url); [|done].
  destruct (getYouTubeId url) as [[videoId|]|]; [|by destruct url|done].
  destruct url; try done.
  assert (H1 : Forall (fun p => locate w p
                                ∈ fs (state_of (fetch cfg w i s videoId st)))
                 (cutSegmentPaths (state_of (fetch cfg w i s videoId st)))).
  { rewrite fetch_clips. eapply Forall_impl; [exact Hall|].
    intros p. apply fetch_fs. }
  destruct (fetch cfg w i s videoId st); simpl in H1; try done.
  by apply cut_clips_exist.
Qed.

Theorem clips_exist (cfg : config) (w : env) (videoTasks : list jsval) :
  ∀ i st,
    Forall (fun p => locate w p ∈ fs st) (cutSegmentPaths st) →
    let st' := state_of (loop cfg w i videoTasks st) in
    Forall (fun p => locate w p ∈ fs st') (cutSegmentPaths st').
Proof.
  induction videoTasks as [|task rest IH]; intros i st Hall; simpl; [done|].
  pose proof (process_task_clips_exist cfg w i task st Hall) as H1.
  destruct (process_task cfg w i task st); simpl in H1; try done;
    by apply IH.
Qed.

(** The list handed to the merge is the list of clips after the loop. *)
Lemma merge_inputs_are_clips (cfg : config) (w : env) (fs0 : files)
  (inputs : list path) (out tmp : path) :
  MergeFiles inputs out tmp ∈ trace (final (main cfg w fs0)) →
  ∃ videoTasks stf,
    read_tasks w = Ok videoTasks
    ∧ loop cfg w 0 videoTasks (checked cfg w fs0) = Next stf
    ∧ cutSegmentPaths stf = inputs ∧ inputs ≠ []
    ∧ out = output cfg ∧ tmp = tempDir cfg.
Proof.
  unfold main.
  destruct (negb (ffmpegFound w) || negb (ytdlpFound w));
    [intros Hin; by apply no_merge_elem in Hin|].
  destruct (negb (ensureDirs w));
    [intros Hin; by apply no_merge_elem in Hin|].
  destruct (negb (completed (emptyTemp w)));
    [intros Hin; by apply no_merge_elem in Hin|].
  destruct (read_tasks w) as [videoTasks|];
    [|intros Hin; by apply no_merge_elem in Hin].
  pose proof (loop_no_merge cfg w videoTasks fs0) as Hnm.
  destruct (loop cfg w 0 videoTasks (checked cfg w fs0))
    as [stf|stf|e stf] eqn:Hloop; simpl in Hnm.
  - destruct (bool_decide_reflect (cutSegmentPaths stf = [])) as [He|Hne].
    + intros Hin. exfalso. revert Hin. apply no_merge_elem.
      unfold nothing_to_join.
      repeat case_match; simpl; by rewrite List.filter_app, Hnm.
    + intros Hin. exists videoTasks, stf.
      destruct (join_cleanup_trace cfg w stf) as (logs & Htr & Hlogs).
      cbn [final] in Hin. rewrite Htr in Hin.
      apply elem_of_app in Hin as [Hin|Hin];
        [by apply no_merge_elem in Hin|].
      apply elem_of_cons in Hin as [Hin|Hin].
      * injection Hin as -> -> ->. by split_and!.
      * apply no_merge_elem in Hin; [done|].
        by rewrite <- (app_nil_l logs), filter_none.
  - by destruct (loop_not_skip cfg w videoTasks 0 (checked cfg w fs0) stf).
  - intros Hin. by apply no_merge_elem in Hin.
Qed.

(** X14: every clip handed to the merge exists when the merge is started. *)
Theorem merged_clips_exist (cfg : config) (w : env) (fs0 : files)
  (videoTasks : list jsval) (inputs : list path) (out tmp : path) :
  read_tasks w = Ok videoTasks →
  MergeFiles inputs out tmp ∈ trace (final (main cfg w fs0)) →
  Forall (fun p => locate w p
                   ∈ fs (state_of (loop cfg w 0 videoTasks
                                     (checked cfg w fs0))))
         inputs.
Proof.
  intros Hread Hin.
  destruct (merge_inputs_are_clips _ _ _ _ _ _ Hin)
    as (tasks' & stf & Hread' & Hloop & <- & _).
  rewrite Hread in Hread'. injection Hread' as <-.
  pose proof (clips_exist cfg w videoTasks 0 (checked cfg w fs0)) as H.
  rewrite Hloop in H |- *. apply H. constructor.
Qed.

(** X15: the merge is started at most once, and never on an empty list. *)
Theorem merge_once_nonempty (cfg : config) (w : env) (fs0 : files) :
  List.filter is_merge (trace (final (main cfg w fs0))) = []
  ∨ ∃ inputs,
      inputs ≠ []
      ∧ List.filter is_merge (trace (final (main cfg w fs0)))
        = [MergeFiles inputs (output cfg) (tempDir cfg)].
Proof.
  unfold main.
  destruct (negb (ffmpegFound w) || negb (ytdlpFound w)); [by left|].
  destruct (negb (ensureDirs w)); [by left|].
  destruct (negb (completed (emptyTemp w))); [by left|].
  destruct (read_tasks w) as [videoTasks|]; [|by left].
  pose proof (loop_no_merge cfg w videoTasks fs0) as Hnm.
  destruct (loop cfg w 0 videoTasks (checked cfg w fs0))
    as [stf|stf|e stf] eqn:Hloop; simpl in Hnm; [| |by left].
  all: destruct (bool_decide_reflect (cutSegmentPaths stf = []))
         as [He|Hne];
    [left; unfold nothing_to_join; repeat case_match; simpl;
     by rewrite List.filter_app, Hnm|].
  all: right; exists (cutSegmentPaths stf); split; [done|].
  all: destruct (join_cleanup_trace cfg w stf) as (logs & Htr & Hlogs).
  all: cbn [final]; rewrite Htr, List.filter_app, Hnm; simpl.
  all: by rewrite <- (app_nil_l logs), filter_none.
Qed.

(** X16: a merge that succeeds leaves the output file, except when the output
    path names an entry in the tree of the temporary directory and the
    removal of that tree deletes it. *)
Theorem successful_merge_output (cfg : config) (w : env) (fs0 : files)
  (videoTasks : list jsval) (st : state) :
  ffmpegFound w = true → ytdlpFound w = true →
  ensureDirs w = true → completed (emptyTemp w) = true →
  read_tasks w = Ok videoTasks →
  loop cfg w 0 videoTasks (checked cfg w fs0) = Next st →
  cutSegmentPaths st ≠ [] →
  mergeToFile w = Succeeded →
  let r := main cfg w fs0 in
  let out := locate w (output cfg) in
  status r = Returned
  ∧ (out ∈ fs (final r)
     ↔ verbose cfg = true
       ∨ ¬ (inside (locate w (tempDir cfg)) out
            ∧ deletes (removeTemp w) out = true)).
Proof.
  intros Hff Hyt Hdirs Hempt Hread Hloop Hne Hm r out.
  subst r. unfold main. rewrite Hff, Hyt, Hdirs, Hempt, Hread, Hloop. simpl.
  rewrite bool_decide_eq_false_2 by done.
  unfold cleanup, join, removed. rewrite Hm. simpl.
  destruct (verbose cfg) eqn:Hv;
    [|destruct (completed (removeTemp w)) eqn:Hrm]; simpl.
  all: split; [done|].
  all: unfold fs_remove; rewrite ?elem_of_filter; fold out; set_solver.
Qed.

(** X11: [main] itself ends the process with [process.exit(1)] exactly
    when a step before the loop fails: a tool is missing, a directory
    cannot be prepared, or the input is unreadable or invalid.  No failure
    of a download, a cut or the merge ends it that way. *)
Theorem exit_code_1_iff (cfg : config) (w : env) (fs0 : files) :
  status (main cfg w fs0) = Exited 1
  ↔ ffmpegFound w = false ∨ ytdlpFound w = false ∨ ensureDirs w = false
    ∨ completed (emptyTemp w) = false ∨ ∃ e, read_tasks w = Throw e.
Proof.
  unfold main.
  destruct (ffmpegFound w); cbn [negb orb];
    [|split; [intros _; by left|done]].
  destruct (ytdlpFound w); cbn [negb orb];
    [|split; [intros _; right; by left|done]].
  destruct (ensureDirs w); cbn [negb];
    [|split; [intros _; right; right; by left|done]].
  destruct (completed (emptyTemp w)); cbn [negb];
    [|split; [intros _; do 3 right; by left|done]].
  destruct (read_tasks w) as [videoTasks|e];
    [|split; [intros _; do 4 right; by exists e|done]].
  split.
  - unfold nothing_to_join. repeat case_match; done.
  - intros [?|[?|[?|[?|[e ?]]]]]; done.
Qed.

(** ** Downloads and cuts over the whole loop *)

Lemma cut_events cfg w i task videoId st :
  ∃ evs,
    trace (state_of (cut cfg w i task videoId st)) = trace st ++ evs
    ∧ Forall (fun e =>
                is_download e = false
                ∧ ∀ src, cut_source e = Some src →
                         src = cachedVideoPath cfg videoId)
             evs.
Proof.
  unfold cut, unguarded.
  repeat case_match; try (exists []; by rewrite app_nil_r).
  unfold cut_promise.
  repeat case_match; simpl; rewrite <- ?app_assoc; simpl;
    eexists; (split; [reflexivity|]); repeat constructor; try done;
    by intros ? [= <-].
Qed.

(** What one iteration adds to the trace: a download only to a path at
    which nothing existed, a cut only of a source that exists. *)
Lemma process_task_events cfg w i task st :
  ∃ evs,
    trace (state_of (process_task cfg w i task st)) = trace st ++ evs
    ∧ Forall (fun e =>
                (∀ u p, e = Download u p → pathExists w p st = false)
                ∧ (∀ src, cut_source e = Some src →
                          pathExists w src
                            (state_of (process_task cfg w i task st))
                          = true))
             evs.
Proof.
  unfold process_task, unguarded.
  destruct (get_field task (lit "url")) as [url|];
    [|exists []; by rewrite app_nil_r].
  destruct (ToString url); [|exists []; by rewrite app_nil_r].
  destruct (getYouTubeId url) as [[videoId|]|];
    [| |exists []; by rewrite app_nil_r].
  2: { destruct url; eexists; (split; [reflexivity|]);
       repeat constructor; done. }
  destruct url as [| | | |u| |];
    try (eexists; (split; [reflexivity|]); repeat constructor; done).
  unfold fetch.
  destruct (pathExists w (cachedVideoPath cfg videoId) st) eqn:Hex.
  - destruct (cut_events cfg w i task videoId st) as (evs & Htr & F).
    exists evs. split; [done|].
    assert (Hsrc : pathExists w (cachedVideoPath cfg videoId)
                     (state_of (cut cfg w i task videoId st)) = true).
    { apply (pathExists_mono w _ st); [intros q; apply cut_fs|done]. }
    eapply Forall_impl; [exact F|]. intros e [Hd Hc]. split.
    + intros u' p ->. done.
    + intros src Hs. by rewrite (Hc src Hs).
  - destruct (succeeded (youtubedl w i)) eqn:Hdl.
    + apply succeeded_writes in Hdl as Hw.
      set (st1 := written w (youtubedl w i) (cachedVideoPath cfg videoId)
                    (emit (Download u (cachedVideoPath cfg videoId)) st)).
      assert (Hin : pathExists w (cachedVideoPath cfg videoId) st1 = true)
        by (by apply pathExists_written).
      destruct (cut_events cfg w i task videoId st1) as (evs & Htr & F).
      exists (Download u (cachedVideoPath cfg videoId) :: evs).
      split; [rewrite Htr; subst st1; simpl; by rewrite <- app_assoc|].
      assert (Hsrc : pathExists w (cachedVideoPath cfg videoId)
                       (state_of (cut cfg w i task videoId st1)) = true).
      { apply (pathExists_mono w _ st1); [intros q; apply cut_fs|done]. }
      constructor; [split; [by intros ? ? [= _ <-]|done]|].
      eapply Forall_impl; [exact F|]. intros e [Hd Hc]. split.
      * intros u' p ->. done.
      * intros src Hs. by rewrite (Hc src Hs).
    + eexists. simpl. rewrite <- app_assoc. split; [reflexivity|].
      repeat constructor; try done. by intros ? ? [= _ <-].
Qed.

Lemma pathExists_false_mono (w : env) (p : path) (st st' : state) :
  (∀ q, q ∈ fs st → q ∈ fs st') →
  pathExists w p st' = false → pathExists w p st = false.
Proof.
  intros Hsub Hf. destruct (pathExists w p st) eqn:Hex; [|done].
  by rewrite (pathExists_mono w p st st' Hsub Hex) in Hf.
Qed.

Lemma loop_events cfg w (videoTasks : list jsval) :
  ∀ i st,
    ∃ evs,
      trace (state_of (loop cfg w i videoTasks st)) = trace st ++ evs
      ∧ Forall (fun e =>
                  (∀ u p, e = Download u p → pathExists w p st = false)
                  ∧ (∀ src, cut_source e = Some src →
                            pathExists w src
                              (state_of (loop cfg w i videoTasks st))
                            = true))
               evs.
Proof.
  induction videoTasks as [|task rest IH]; intros i st; simpl.
  { exists []. by rewrite app_nil_r. }
  destruct (process_task_events cfg w i task st) as (evs1 & H1 & F1).
  pose proof (process_task_fs cfg w i task st) as Hsub.
  destruct (process_task cfg w i task st) as [st1|st1|e st1];
    simpl in H1, F1, Hsub; [| |by exists evs1].
  all: destruct (IH (S i) st1) as (evs2 & H2 & F2).
  all: exists (evs1 ++ evs2); rewrite H2, H1, app_assoc; split; [done|].
  all: apply Forall_app; split.
  all: try (eapply Forall_impl; [exact F1|]; intros e [Hd Hc]; split;
            [done|]; intros src Hs;
            apply (pathExists_mono w src st1);
            [intros q; apply loop_fs|by apply Hc]).
  all: eapply Forall_impl; [exact F2|]; intros e [Hd Hc]; split; [|done].
  all: intros u p He; apply (pathExists_false_mono w p st st1);
    [intros q; apply Hsub|by apply (Hd u p)].
Qed.

(** The trace of a run: the two version checks alone, or the trace of the
    loop followed by events that are neither downloads nor cuts. *)
Lemma main_trace (cfg : config) (w : env) (fs0 : files) :
  ∃ tail,
    Forall (fun e => is_download e = false ∧ is_cut e = false) tail
    ∧ (trace (final (main cfg w fs0)) = version_checks ++ tail
       ∨ ∃ videoTasks,
           read_tasks w = Ok videoTasks
           ∧ trace (final (main cfg w fs0))
             = trace (state_of (loop cfg w 0 videoTasks (checked cfg w fs0)))
               ++ tail).
Proof.
  unfold main.
  destruct (negb (ffmpegFound w) || negb (ytdlpFound w));
    [exists []; split; [constructor|by left]|].
  destruct (negb (ensureDirs w)); [exists []; split; [constructor|by left]|].
  destruct (negb (completed (emptyTemp w)));
    [exists []; split; [constructor|by left]|].
  destruct (read_tasks w) as [videoTasks|];
    [|exists []; split; [constructor|by left]].
  destruct (loop cfg w 0 videoTasks (checked cfg w fs0)) as [st|st|e st]
    eqn:Hloop;
    unfold cleanup, join, nothing_to_join, removed;
    repeat case_match; simpl; rewrite <- ?app_assoc;
    eexists; (split; [|right; exists videoTasks; split; [done|];
                       rewrite Hloop; simpl;
                       try reflexivity; symmetry; apply app_nil_r]);
    repeat constructor.
Qed.

(** X17: a video whose cache path exists when the loop starts is never
    downloaded. *)
Theorem cached_never_downloaded (cfg : config) (w : env) (fs0 : files)
  (u : jsstring) (p : path) :
  pathExists w p (checked cfg w fs0) = true →
  Download u p ∉ trace (final (main cfg w fs0)).
Proof.
  intros Hc Hin.
  assert (Htail : ∀ tail,
             Forall (fun e => is_download e = false ∧ is_cut e = false) tail →
             Download u p ∉ tail).
  { intros tail F Ht. rewrite Forall_forall in F.
    by destruct (F _ Ht) as [? _]. }
  destruct (main_trace cfg w fs0) as (tail & F & [Htr|(tasks & _ & Htr)]);
    rewrite Htr in Hin; apply elem_of_app in Hin as [Hin|Hin];
    try (by apply (Htail tail F)).
  - apply elem_of_cons in Hin as [Hin|Hin]; [done|].
    apply elem_of_cons in Hin as [Hin|Hin]; [done|]. by apply elem_of_nil in Hin.
  - destruct (loop_events cfg w tasks 0 (checked cfg w fs0)) as (evs & He & Fe).
    rewrite He in Hin. apply elem_of_app in Hin as [Hin|Hin].
    + simpl in Hin. apply elem_of_cons in Hin as [Hin|Hin]; [done|].
      apply elem_of_cons in Hin as [Hin|Hin]; [done|].
      by apply elem_of_nil in Hin.
    + rewrite Forall_forall in Fe. destruct (Fe _ Hin) as [Hd _].
      rewrite (Hd u p eq_refl) in Hc. done.
Qed.


(** ** Every request is accounted for *)

Lemma process_task_accounted cfg w i task st :
  let skips st := length (List.filter is_skip_notice (trace st)) in
  match process_task cfg w i task st with
  | Next st' =>
      length (cutSegmentPaths st') = S (length (cutSegmentPaths st))
      ∧ skips st' = skips st
  | Skip st' =>
      length (cutSegmentPaths st') = length (cutSegmentPaths st)
      ∧ skips st' = S (skips st)
  | Uncaught _ _ => True
  end.
Proof.
  unfold process_task, fetch, cut, cut_promise, unguarded.
  repeat case_match; simplify_eq/=; try done;
    rewrite <- ?app_assoc, ?List.filter_app, ?length_app; simpl; lia.
Qed.

(** X19: when the loop runs to its end, each request has either produced one
    clip or been reported as skipped by exactly one line: the clips and
    the skip lines together are as many as the requests. *)
Theorem requests_accounted (cfg : config) (w : env)
  (videoTasks : list jsval) :
  ∀ i st st',
    loop cfg w i videoTasks st = Next st' →
    (length (cutSegmentPaths st')
     + length (List.filter is_skip_notice (trace st')))%nat
    = (length (cutSegmentPaths st)
       + length (List.filter is_skip_notice (trace st))
       + length videoTasks)%nat.
Proof.
  induction videoTasks as [|task rest IH]; intros i st st' Hloop;
    simpl in Hloop.
  { injection Hloop as <-. simpl. lia. }
  pose proof (process_task_accounted cfg w i task st) as H1. simpl in H1.
  destruct (process_task cfg w i task st) as [st1|st1|e st1]; [| |done].
  all: rewrite (IH _ _ _ Hloop); simpl; lia.
Qed.

(** ** Segment file names *)







(** The clip of a request is named after its position, counted from 1,
    and the identifier of its URL. *)
Lemma process_task_clip cfg w i task st st' :
  process_task cfg w i task st = Next st' →
  ∃ u videoId,
    get_field task (lit "url") = Ok (VString u)
    ∧ getYouTubeId (VString u) = Ok (Some videoId)
    ∧ cutSegmentPaths st'
      = cutSegmentPaths st ++ [segmentOutputPath cfg i videoId].
Proof.
  unfold process_task, unguarded.
  destruct (get_field task (lit "url")) as [url|]; [|done].
  destruct (ToString url); [|done].
  destruct (getYouTubeId url) as [[videoId|]|] eqn:Hid;
    [|by destruct url|done].
  destruct url; try done.
  pose proof (fetch_clips cfg w i s videoId st) as Hf.
  destruct (fetch cfg w i s videoId st) as [st1|st1|e st1]; simpl in Hf;
    [|done|done].
  pose proof (cut_clips cfg w i task videoId st1) as Hc.
  intros Hcut. rewrite Hcut in Hc. exists s, videoId. by rewrite <- Hf.
Qed.

(** X20: the clip of a request is named after its position in the input
    and the identifier of its URL: it is the segment path of that index
    (the file name counts from 1) and that identifier. *)
Theorem clip_named_after_request (cfg : config) (w : env) (i : nat)
  (videoTasks : list jsval) (st : state) (j : nat) (p : path) :
  produces cfg w i videoTasks st j p →
  ∃ task u videoId,
    videoTasks !! j = Some task
    ∧ get_field task (lit "url") = Ok (VString u)
    ∧ getYouTubeId (VString u) = Ok (Some videoId)
    ∧ p = segmentOutputPath cfg (i + j) videoId.
Proof.
  intros (task & st_j & st_j' & Ht & _ & Hp & Hc).
  destruct (process_task_clip _ _ _ _ _ _ Hp) as (u & videoId & Hu & Hid & Hc').
  rewrite Hc in Hc'. apply app_inj_tail in Hc' as [_ ->].
  by exists task, u, videoId.
Qed.



(** ** The title route *)

(** X22: the route always answers, with one of three statuses: 400 exactly for
    an empty identifier; 200 exactly when the identifier is not empty and
    an ok response with a JSON body other than null arrived, and then the
    title is never empty or otherwise falsy; 500 with the fallback title
    in every other case. *)
Theorem title_route_answers (videoId : jsstring) (net : fetch_outcome) :
  let r := GET videoId net in
  (status_code r = 400 ↔ videoId = [])
  ∧ (status_code r = 200
     ↔ videoId ≠ []
       ∧ ∃ code data, net = Responded true code (Some data)
                      ∧ data ≠ VNull ∧ data ≠ VUndefined)
  ∧ (status_code r = 200 →
     ∃ title, lookup_prop (lit "title") (body r) = Some title
              ∧ truthy title = true)
  ∧ (status_code r = 500 →
     lookup_prop (lit "fallback") (body r)
     = Some (VString (lit "Video " ++ videoId)))
  ∧ (status_code r = 200 ∨ status_code r = 400 ∨ status_code r = 500).
Proof.
  intros r. subst r. unfold GET, title_failure.
  destruct (bool_decide_reflect (videoId = [])) as [->|Hne]; simpl.
  { split_and!; [naive_solver..|by auto]. }
  destruct net as [|[] code [data|]]; simpl;
    try (split_and!; [naive_solver..|by auto]).
  destruct data; simpl;
    try (split_and!; [naive_solver..|by auto]).
  all: split_and!; [naive_solver|naive_solver| |naive_solver|by auto].
  all: intros _; eexists; (split; [reflexivity|]).
  all: try (vm_compute; reflexivity).
  destruct (truthy (default VUndefined (lookup_prop (lit "title") props)))
    eqn:E; [exact E|vm_compute; reflexivity].
Qed.


(** * Concrete runs of the further properties *)

(** A link shared with a second [v] parameter: the last marker wins, and
    its token is too short. *)
Lemma getYouTubeId_last_marker_witness :
  getYouTubeId (VString (Sample'.shared ++ lit "&v=" ++ lit "x" ++ []))
  = Ok None.
Proof.
  apply (getYouTubeId_last_marker Sample'.shared (lit "&v=") (lit "x") []).
  - decide_closed.
  - unfold marker. tauto.
  - decide_closed.
  - exact I.
  - intros pre' mk' s' Heq Hmk' _.
    apply (last_marker_in_prefix
             (Sample'.shared ++ lit "&v=" ++ lit "x" ++ []) []
             pre' mk' s' (length Sample'.shared));
      [constructor|by_eval|by rewrite app_nil_r|done].
Defined.

Lemma getYouTubeId_known_shapes_witness :
  let id := lit "dQw4w9WgXcQ" in
  getYouTubeId
    (VString (lit "https://www.youtube.com/watch?v=" ++ id ++ lit "&t"))
  = Ok (Some id)
  ∧ getYouTubeId (VString (lit "https://youtu.be/" ++ id ++ lit "&t"))
    = Ok (Some id)
  ∧ getYouTubeId
      (VString (lit "https://www.youtube.com/embed/" ++ id ++ lit "&t"))
    = Ok (Some id).
Proof.
  apply (getYouTubeId_known_shapes (lit "dQw4w9WgXcQ") (lit "&t"));
    [reflexivity|decide_closed|reflexivity|decide_closed].
Defined.

(** No marker starts anywhere in a string on which this check succeeds. *)
Lemma no_marker_check (url : jsstring) :
  forallb (fun i => negb (marker_at (drop i url))) (seq 0 (S (length url)))
  = true →
  ∀ pre mk rest, url = pre ++ mk ++ rest → ¬ marker mk.
Proof.
  intros Hcheck pre mk rest -> Hmk.
  rewrite forallb_forall in Hcheck. specialize (Hcheck (length pre)).
  rewrite drop_app_length, marker_at_marker in Hcheck by done.
  assert (Hin : In (length pre) (seq 0 (S (length (pre ++ mk ++ rest))))).
  { apply in_seq. rewrite length_app. lia. }
  by apply Hcheck in Hin.
Qed.

Lemma getYouTubeId_no_marker_witness :
  getYouTubeId (VString (lit "https://example.com/clip.mp4")) = Ok None.
Proof.
  apply getYouTubeId_no_marker, no_marker_check. by_eval.
Defined.

Lemma timeToSeconds_throws_iff_colons_witness :
  timeToSeconds (VString (lit "1:2:3:4"))
  = Throw (InvalidTimeFormat (lit "1:2:3:4")).
Proof.
  apply (proj2 (timeToSeconds_throws_iff_colons (lit "1:2:3:4"))).
  vm_compute. lia.
Defined.

Lemma calculateDuration_nan_witness :
  calculateDuration (VString (lit "00:00:10")) (VString (lit "soon")) = Ok nan.
Proof.
  apply (calculateDuration_nan _ _ 10%float nan); [by_eval|by_eval|].
  right. reflexivity.
Defined.


Lemma loop_completes_witness :
  ∃ st', loop Sample.cfg (Sample.copy_fails Sample.three) 0 Sample.three
           (checked Sample.cfg (Sample.copy_fails Sample.three) ∅) = Next st'.
Proof.
  apply loop_completes.
  repeat constructor; by do 3 eexists.
Defined.

Lemma non_string_url_rejects_main_witness :
  let tasks := [Sample'.first; Sample'.typed] in
  status (main Sample.cfg (Sample.all_fine tasks) ∅) = Rejected TypeError.
Proof.
  intros tasks.
  rewrite (non_string_url_rejects_main Sample.cfg (Sample.all_fine tasks) ∅
             [Sample'.first] [] Sample'.typed (VNumber 5%float));
    [reflexivity|reflexivity|reflexivity|reflexivity|reflexivity|by_eval|
     |reflexivity|done].
  constructor; [|constructor]. by do 3 eexists.
Defined.

(** The video of the entry is downloaded; then the line that announces
    the cut throws. *)
Lemma unprintable_time_rejects_main_witness :
  let w := Sample.all_fine [Sample'.unprintable] in
  let r := main Sample.cfg w ∅ in
  status r = Rejected TypeError
  ∧ List.filter is_processing (trace (final r))
    = [Download (lit Sample.url) (cachedVideoPath Sample.cfg Sample.videoId)].
Proof.
  intros w r.
  pose (st1 := checked Sample.cfg w ∅).
  pose (fl := fetch Sample.cfg w 0 (lit Sample.url) Sample.videoId st1).
  destruct (unprintable_time_rejects_main Sample.cfg w ∅ [] []
              Sample'.unprintable
              (VObject [(lit "toString", VNumber 1%float)])
              (VString (lit "00:00:20"))
              (lit Sample.url) Sample.videoId st1 (state_of fl))
    as [Hmain _];
    [reflexivity|reflexivity|reflexivity|reflexivity|by_eval|reflexivity
    |reflexivity|by_eval|by_eval|reflexivity|reflexivity|by left|].
  subst r. rewrite Hmain. split; [reflexivity|by_eval].
Defined.

Lemma main_keeps_files_outside_temp_witness :
  Sample.cached
  ∈ fs (final (main Sample.cfg (Sample.merge_fails Sample.three)
                 {[ Sample.cached ]})).
Proof.
  apply main_keeps_files_outside_temp; decide_closed.
Defined.

Lemma main_clears_temp_witness :
  let w := Sample.all_fine Sample.three in
  ¬ inside (locate w (tempDir Sample.cfg)) (locate w (output Sample.cfg)).
Proof.
  intros w.
  apply (main_clears_temp Sample.cfg w
           {[ [lit "work"; lit ".temp_segments"; lit "old.mp4"] ]});
    [reflexivity|reflexivity|left; by_eval|decide_closed].
Defined.

Lemma merged_clips_exist_witness :
  let w := Sample.all_fine [Sample'.first] in
  Forall (fun p => locate w p
                   ∈ fs (state_of (loop Sample.cfg w 0 [Sample'.first]
                                     (checked Sample.cfg w ∅))))
         [Sample.clip1].
Proof.
  intros w.
  apply (merged_clips_exist Sample.cfg w ∅
           [Sample'.first] [Sample.clip1]
           (lit "final.mp4") (lit ".temp_segments"));
    [by_eval|find_event].
Defined.

Lemma successful_merge_output_witness :
  let w := Sample.all_fine [Sample'.first] in
  let r := main Sample.cfg w ∅ in
  status r = Returned ∧ locate w (output Sample.cfg) ∈ fs (final r).
Proof.
  intros w r.
  pose (fl := loop Sample.cfg w 0 [Sample'.first] (checked Sample.cfg w ∅)).
  destruct (successful_merge_output Sample.cfg w ∅ [Sample'.first]
              (state_of fl))
    as (Hs & Hout);
    [reflexivity|reflexivity|reflexivity|reflexivity|by_eval|by_eval|
     |reflexivity|].
  { vm_compute. discriminate. }
  split; [exact Hs|]. apply Hout. right. intros [Hin _]. revert Hin.
  apply (bool_decide_unpack (¬ _)). vm_compute. exact I.
Defined.

Lemma cached_never_downloaded_witness :
  Download (lit Sample.url) (cachedVideoPath Sample.cfg Sample.videoId)
  ∉ trace (final (main Sample.cfg (Sample.all_fine Sample.twice)
                    {[ Sample.cached ]})).
Proof.
  apply cached_never_downloaded. by_eval.
Defined.


(** Two requests, both skipped for want of an identifier. *)
Lemma requests_accounted_witness :
  let w := Sample.all_fine Sample.unresolved in
  let st := checked Sample.cfg w ∅ in
  let st' := state_of (loop Sample.cfg w 0 Sample.unresolved st) in
  (length (cutSegmentPaths st')
   + length (List.filter is_skip_notice (trace st')))%nat
  = (length (cutSegmentPaths st)
     + length (List.filter is_skip_notice (trace st))
     + length Sample.unresolved)%nat.
Proof.
  intros w st st'.
  apply (requests_accounted Sample.cfg w Sample.unresolved 0 st st').
  by_eval.
Defined.

Lemma clip_named_after_request_witness :
  ∃ task u videoId,
    [Sample'.first] !! 0%nat = Some task
    ∧ get_field task (lit "url") = Ok (VString u)
    ∧ getYouTubeId (VString u) = Ok (Some videoId)
    ∧ Sample.clip1 = segmentOutputPath Sample.cfg (0 + 0) videoId.
Proof.
  pose (w := Sample.all_fine [Sample'.first]).
  pose (st := checked Sample.cfg w ∅).
  apply (clip_named_after_request Sample.cfg w 0 [Sample'.first] st).
  apply produces_head.
  exists (state_of (process_task Sample.cfg w 0 Sample'.first st)).
  split; by_eval.
Defined.

